(** * ETH-XMR atomic swap: a shallow embedding of the Go sources

    The development follows the layout of the repository:

    - [common]    : [common/config.go], per-environment configuration defaults;
    - [relayer]   : the relay-claim request builder ([CreateRelayClaimRequest])
                    and the fixed relayer fee;
    - [rpc]       : [rpc/daemon.go], the administrative [Version] call;
    - [contracts] : the deployed-bytecode check exercised by the contract tests;
    - [protocol]  : the on-chain swap contract and the per-swap state machine
                    described by the protocol write-up.

    Go values are modelled as the code has them: a [byte]-sized enum as a [Z],
    [time.Duration] as a number of nanoseconds, a pointer as an [option], a
    [panic] as an explicit outcome, [(value, error)] results as pairs. *)

From Stdlib Require Import ZArith QArith String List Lia DecimalString.
From Stdlib Require Import DecimalPos DecimalZ.
From Stdlib.Strings Require Import Byte.
From stdpp Require Import base tactics option list.
Import ListNotations.

Local Open Scope Z_scope.

(** ** Go runtime conventions shared by all packages *)

(** A Go call either returns a value or panics with a message. *)
Inductive outcome (A : Type) : Type :=
| Returns (a : A)
| Panics (msg : string).
Arguments Returns {A} a.
Arguments Panics {A} msg.

(** A panic propagates through every later statement: [x ← m; k] runs [k]
    only when [m] returned. *)
#[global] Instance outcome_ret : MRet outcome := fun A a => Returns a.
#[global] Instance outcome_bind : MBind outcome := fun A B k m =>
  match m with
  | Returns a => k a
  | Panics msg => Panics msg
  end.

(** A Go pointer: [nil] is [None]. *)
Definition ptr (A : Type) : Type := option A.
Definition nil_ptr {A} : ptr A := None.

(** Dereferencing panics on [nil], with the text of the runtime error. *)
Definition deref {A} (p : ptr A) : outcome A :=
  match p with
  | Some a => Returns a
  | None => Panics "runtime error: invalid memory address or nil pointer dereference"
  end.

(** [ethcommon.Address] is a 20-byte array; its zero value is all zeroes. *)
Definition ethAddrByteLen : nat := 20.
Abbreviation Address := (list byte).
Definition zeroAddress : Address := repeat x00 ethAddrByteLen.

#[global] Instance byte_eq_dec : EqDecision byte := Byte.byte_eq_dec.

(** ** Package [common]: [common/config.go] *)
Module common.

(** [type Environment byte]: the declaration and its constants live in a
    file that is not among the sources; only their use in [switch]
    statements is. *)
Definition Environment : Type := Z.

(** [time.Duration] counts nanoseconds. *)
Definition Duration : Type := Z.
Definition time_Second : Duration := 1000000000.
Definition time_Minute : Duration := 60 * time_Second.
Definition time_Hour : Duration := 60 * time_Minute.

(** Constants and library functions that [config.go] refers to but does
    not declare. *)
Class Decls : Type := {
  Mainnet : Environment;
  Stagenet : Environment;
  Development : Environment;
  MainnetChainID : Z;
  SepoliaChainID : Z;
  DefaultMoneroDaemonMainnetPort : Z;
  DefaultMoneroDaemonStagenetPort : Z;
  DefaultMoneroDaemonDevPort : Z;
  homeDir : string;
  path_Join : list string -> string;
  HexToAddress : string -> Address
}.

Record MoneroNode : Type := {
  Host : string;
  Port : Z
}.

Record Config : Type := {
  Env : Environment;
  EthereumChainID : ptr Z;
  DataDir : string;
  MoneroNodes : list MoneroNode;
  SwapCreatorAddr : Address;
  ForwarderAddr : Address;
  Bootnodes : list string
}.

Section WithDecls.
Context `{D : Decls}.

Definition baseDir : string := path_Join [homeDir; ".atomicswap"%string].

Definition MainnetConfig : ptr Config :=
  Some {|
    Env := Mainnet;
    EthereumChainID := Some MainnetChainID;
    DataDir := path_Join [baseDir; "mainnet"%string];
    MoneroNodes := [
      {| Host := "node.sethforprivacy.com"; Port := 18089 |};
      {| Host := "xmr-node.cakewallet.com"; Port := DefaultMoneroDaemonMainnetPort |};
      {| Host := "node.monerodevs.org"; Port := 18089 |};
      {| Host := "node.community.rino.io"; Port := DefaultMoneroDaemonMainnetPort |}
    ];
    SwapCreatorAddr := HexToAddress "0x";
    ForwarderAddr := HexToAddress "0xB2b5841DBeF766d4b521221732F9B618fCf34A87";
    Bootnodes := []
  |}.

Definition StagenetConfig : ptr Config :=
  Some {|
    Env := Stagenet;
    EthereumChainID := Some SepoliaChainID;
    DataDir := path_Join [baseDir; "stagenet"%string];
    MoneroNodes := [
      {| Host := "node.sethforprivacy.com"; Port := 38089 |};
      {| Host := "node.monerodevs.org"; Port := 38089 |};
      {| Host := "stagenet.community.rino.io"; Port := 38081 |}
    ];
    SwapCreatorAddr := HexToAddress "0x45cc2dB5021dc9C01513D9ee7914b61810bd6Ad6";
    ForwarderAddr := HexToAddress "0xa030E074b8398005a454CB7c51E9b7CDb966744a";
    Bootnodes := [
      "/ip4/134.122.115.208/tcp/9900/p2p/12D3KooWDqCzbjexHEa8Rut7bzxHFpRMZyDRW1L6TGkL1KY24JH5";
      "/ip4/143.198.123.27/tcp/9900/p2p/12D3KooWSc4yFkPWBFmPToTMbhChH3FAgGH96DNzSg5fio1pQYoN";
      "/ip4/67.207.89.83/tcp/9900/p2p/12D3KooWLbfkLZZvvn8Lxs1KDU3u7gyvBk88ZNtJBbugytBr5RCG";
      "/ip4/134.122.115.208/tcp/9900/p2p/12D3KooWDqCzbjexHEa8Rut7bzxHFpRMZyDRW1L6TGkL1KY24JH5";
      "/ip4/67.205.131.11/tcp/9900/p2p/12D3KooWT19g8cfBVYiGWkksU1ZojHCBNqTu3Hz5JLfhhytaHSwi";
      "/ip4/164.92.103.159/tcp/9900/p2p/12D3KooWSNQF1eNyapxC2zA3jJExgLX7jWhEyw8B3k7zMW5ZRvQz";
      "/ip4/164.92.123.10/tcp/9900/p2p/12D3KooWG8z9fXVTB72XL8hQbahpfEjutREL9vbBQ4FzqtDKzTBu";
      "/ip4/161.35.110.210/tcp/9900/p2p/12D3KooWS8iKxqsGTiL3Yc1VaAfg99U5km1AE7bWYQiuavXj3Yz6"
    ]%string
  |}.

(** The fields the literal leaves out take their zero values. *)
Definition DevelopmentConfig : ptr Config :=
  Some {|
    Env := Development;
    EthereumChainID := Some 1337;
    DataDir := path_Join [baseDir; "dev"%string];
    MoneroNodes := [
      {| Host := "127.0.0.1"; Port := DefaultMoneroDaemonMainnetPort |}
    ];
    SwapCreatorAddr := zeroAddress;
    ForwarderAddr := zeroAddress;
    Bootnodes := []
  |}.

Definition DefaultMoneroWalletName : string := "swap-wallet".
Definition DefaultLibp2pKeyFileName : string := "net.key".
Definition DefaultEthKeyFileName : string := "eth.key".

Definition MoneroWalletPath (c : Config) : string :=
  path_Join [DataDir c; "wallet"%string; DefaultMoneroWalletName].

Definition LibP2PKeyFile (c : Config) : string :=
  path_Join [DataDir c; DefaultLibp2pKeyFileName].

Definition EthKeyFileName (c : Config) : string :=
  path_Join [DataDir c; DefaultEthKeyFileName].

(** A [switch] tries its cases from top to bottom. *)
Definition ConfigDefaultsForEnv (env : Environment) : outcome (ptr Config) :=
  if env =? Mainnet then Returns MainnetConfig
  else if env =? Stagenet then Returns StagenetConfig
  else if env =? Development then Returns DevelopmentConfig
  else Panics "invalid environment".

Definition SwapTimeoutFromEnv (env : Environment) : outcome Duration :=
  if (env =? Mainnet) || (env =? Stagenet) then Returns time_Hour
  else if env =? Development then Returns (time_Minute * 2)
  else Panics "invalid environment".

Definition DefaultMoneroPortFromEnv (env : Environment) : outcome Z :=
  if env =? Mainnet then Returns DefaultMoneroDaemonMainnetPort
  else if env =? Stagenet then Returns DefaultMoneroDaemonStagenetPort
  else if env =? Development then Returns DefaultMoneroDaemonDevPort
  else Panics "invalid environment".

End WithDecls.

End common.

(** ** Package [relayer]: the relay-claim request builder *)
Module relayer.

Definition relayedClaimGas : Z := 70000.
Definition forwarderClaimGas : Z := 156000.

(** [big.NewInt] takes an [int64]; the constant [9e15] is converted to it. *)
Definition int64_max : Z := 2 ^ 63 - 1.
Definition FeeWei : Z := 9 * 10 ^ 15.

(** Modelled from the spec: [coins.NewWeiAmount(...).AsEther()] belongs to
    package [coins], which is not among the sources. The fee is
    denominated in the base asset, whose unit (ether) is [10^18] wei;
    the conversion is exact decimal arithmetic, modelled on [Q]. *)
Definition AsEther (wei : Z) : Q := inject_Z wei / inject_Z (10 ^ 18).

Definition FeeEth : Q := AsEther FeeWei.

(** [*[32]byte]: a pointer to an array of exactly 32 bytes. *)
Record Bytes32 : Type := {
  bytes : list byte;
  bytes_len : length bytes = 32%nat
}.

(** Types and the signing helper that the file uses but does not declare:
    [createForwarderSignature] lives in another file of the package and
    returns a Go pair (signature, error); it may also panic. The Ethereum
    client stands for the chain state it reads. *)
Class Externals : Type := {
  Context_ : Type;
  PrivateKey : Type;
  EthClient : Type;
  SwapCreatorSwap : Type;
  Hash : Type;
  error : Type;
  createForwarderSignature :
    Context_ -> ptr PrivateKey -> ptr EthClient -> Address -> Address ->
    ptr SwapCreatorSwap -> ptr Bytes32 -> outcome (list byte * option error)
}.

(** [message.RelayClaimRequest], with the fields of the composite literal. *)
Record RelayClaimRequest `{Externals} : Type := {
  OfferID : ptr Hash;
  SwapCreatorAddr : Address;
  Swap : ptr SwapCreatorSwap;
  Secret : list byte;
  Signature : list byte
}.

Section WithExternals.
Context `{X : Externals}.

(** [secret[:]] dereferences the array pointer, so it panics on [nil]. *)
Definition CreateRelayClaimRequest
    (ctx : Context_) (claimerEthKey : ptr PrivateKey) (ec : ptr EthClient)
    (swapCreatorAddr forwarderAddr : Address)
    (swap : ptr SwapCreatorSwap) (secret : ptr Bytes32)
  : outcome (ptr RelayClaimRequest * option error) :=
  r ← createForwarderSignature ctx claimerEthKey ec swapCreatorAddr
        forwarderAddr swap secret;
  match r.2 with
  | Some err => Returns (None, Some err)
  | None =>
      s ← deref secret;
      Returns (Some {| OfferID := None;
                       SwapCreatorAddr := swapCreatorAddr;
                       Swap := swap;
                       Secret := bytes s;
                       Signature := r.1 |}, None)
  end.

End WithExternals.

End relayer.

(** ** Package [rpc]: [rpc/daemon.go] *)
Module rpc.

(** The [ProtocolBackend] interface is declared elsewhere in the package;
    [Version] uses three of its methods. A method call on the backend may
    change the backend, so each returns the new backend along with its
    result. *)
Module ProtocolBackend.
Class t (B : Type) : Type := {
  Client : Type;
  ETHClient : B -> Client * B;
  ChainID : Client -> Z;
  Env : B -> common.Environment * B;
  SwapCreatorAddr : B -> Address * B
}.

(** The three methods are accessors: they leave the backend as it is. *)
Class Accessors (B : Type) `{t B} : Prop := {
  ETHClient_reads : forall b, (ETHClient b).2 = b;
  Env_reads : forall b, (Env b).2 = b;
  SwapCreatorAddr_reads : forall b, (SwapCreatorAddr b).2 = b
}.
End ProtocolBackend.

(** [cliutil.GetVersion()] and [net.ProtocolID] come from other packages. *)
Class Externals : Type := {
  GetVersion : string;
  ProtocolID : string;
  error : Type
}.

Record VersionResponse : Type := {
  SwapdVersion : string;
  P2PVersion : string;
  Env : common.Environment;
  SwapCreatorAddr : Address
}.

(** [stopServer] acts on the server, whose state is [S]. *)
Record DaemonService (S B : Type) : Type := {
  stopServer : S -> S;
  pb : B
}.
Arguments stopServer {S B} d.
Arguments pb {S B} d.

(** [fmt.Sprintf("%s/%d", s, n)] *)
Definition Sprintf_s_d (s : string) (n : Z) : string :=
  (s ++ "/" ++ NilZero.string_of_int (Z.to_int n))%string.

Section WithBackend.
Context `{X : Externals} {S B : Type} `{PB : ProtocolBackend.t B}.

Definition NewDaemonService (stop : S -> S) (b : B) : DaemonService S B :=
  {| stopServer := stop; pb := b |}.

Definition Shutdown (s : DaemonService S B) (server : S) : S * option error :=
  (stopServer s server, None).

(** [resp] is written field by field; the result holds the backend after
    the calls, the filled response and the returned error. *)
Definition Version (s : DaemonService S B) (resp : VersionResponse)
  : B * VersionResponse * option error :=
  let resp1 := {| SwapdVersion := GetVersion;
                  P2PVersion := P2PVersion resp;
                  Env := Env resp;
                  SwapCreatorAddr := SwapCreatorAddr resp |} in
  let ec := ProtocolBackend.ETHClient (pb s) in
  let resp2 := {| SwapdVersion := SwapdVersion resp1;
                  P2PVersion := Sprintf_s_d ProtocolID (ProtocolBackend.ChainID ec.1);
                  Env := Env resp1;
                  SwapCreatorAddr := SwapCreatorAddr resp1 |} in
  let env := ProtocolBackend.Env ec.2 in
  let resp3 := {| SwapdVersion := SwapdVersion resp2;
                  P2PVersion := P2PVersion resp2;
                  Env := env.1;
                  SwapCreatorAddr := SwapCreatorAddr resp2 |} in
  let addr := ProtocolBackend.SwapCreatorAddr env.2 in
  let resp4 := {| SwapdVersion := SwapdVersion resp3;
                  P2PVersion := P2PVersion resp3;
                  Env := Env resp3;
                  SwapCreatorAddr := addr.1 |} in
  (addr.2, resp4, None).

End WithBackend.

End rpc.

(** ** Package [contracts]: the deployed-bytecode check

    The test file of the package is among the sources; the checked function
    and the constants it uses are declared next to it. *)
Module contracts.

Inductive error : Type :=
| errInvalidSwapCreatorContract
| errInvalidForwarderContract.

(** The two constants the tests pin down: the code of a SwapCreator
    deployed with the all-zero trusted forwarder
    ([TestExpectedSwapCreatorBytecodeHex]) and the offsets at which the
    forwarder address is compiled into it ([TestForwarderAddrIndexes]). *)
Class Constants : Type := {
  expectedSwapCreatorBytecode : list byte;
  forwarderAddrIndices : list nat
}.

(** [ec.CodeAt(ctx, addr, nil)]: the client maps an address to the code
    deployed there. *)
Definition EthClient : Type := Address -> list byte.

(** [code[i : i+ethAddrByteLen]] *)
Definition addrAt (code : list byte) (i : nat) : Address :=
  take ethAddrByteLen (drop i code).

(** [copy(code[i:i+ethAddrByteLen], addr)] for every offset in turn. *)
Definition fillForwarder (addr : Address) (idxs : list nat) (code : list byte)
  : list byte :=
  foldl (fun c i => list_inserts i addr c) code idxs.

(** What the tests take as well-formed constants: offsets in increasing
    order, at least an address apart, inside the code, each holding the
    zero address in the expected code, and at least one of them. *)
Fixpoint spaced (lo : nat) (idxs : list nat) : bool :=
  match idxs with
  | [] => true
  | i :: rest => (lo <=? i)%nat && spaced (i + ethAddrByteLen) rest
  end.

Definition inRange (len : nat) (idxs : list nat) : bool :=
  forallb (fun i => (i + ethAddrByteLen <=? len)%nat) idxs.

(** The loop of [TestForwarderAddrIndexes]:
    [for i := 0; i < len(contactBytes)-ethAddrByteLen; i++], appending [i]
    and skipping the address when [contactBytes[i:i+ethAddrByteLen]] is the
    forwarder. Go's [int] subtraction may go below zero, so the bound is
    computed on [Z]. Each iteration uses one unit of [fuel]. *)
Fixpoint addressLocationsLoop (fuel : nat) (contactBytes : list byte)
    (trustedForwarder : Address) (i : nat) (addressLocations : list nat)
  : list nat :=
  match fuel with
  | O => addressLocations
  | S fuel' =>
      if (Z.of_nat i <? Z.of_nat (length contactBytes) - Z.of_nat ethAddrByteLen)
      then
        if bool_decide (addrAt contactBytes i = trustedForwarder)
        then addressLocationsLoop fuel' contactBytes trustedForwarder
               (i + (ethAddrByteLen - 1) + 1) (addressLocations ++ [i])
        else addressLocationsLoop fuel' contactBytes trustedForwarder
               (i + 1) addressLocations
      else addressLocations
  end.

(** The index grows at every iteration, so the length of the code is fuel
    enough. *)
Definition addressLocations (contactBytes : list byte) (trustedForwarder : Address)
  : list nat :=
  addressLocationsLoop (length contactBytes) contactBytes trustedForwarder 0 [].

Section WithConstants.
Context `{K : Constants}.

(** [require.EqualValues(t, forwarderAddrIndices, addressLocations)] *)
Definition forwarderAddrIndicesMatch (contactBytes : list byte)
    (trustedForwarder : Address) : bool :=
  bool_decide (forwarderAddrIndices = addressLocations contactBytes trustedForwarder).

Definition wellFormed : bool :=
  match forwarderAddrIndices with [] => false | _ :: _ => true end
  && spaced 0 forwarderAddrIndices
  && inRange (length expectedSwapCreatorBytecode) forwarderAddrIndices
  && forallb (fun i => bool_decide (addrAt expectedSwapCreatorBytecode i = zeroAddress))
       forwarderAddrIndices.

(** Modelled from the spec: what deployment and [CodeAt] return is outside
    the sources. The expected known-good SwapCreator code for a trusted
    forwarder is taken to be the expected code with that forwarder written
    at every offset, which is how the tests describe the two constants. *)
Definition swapCreatorCode (trustedForwarder : Address) : list byte :=
  fillForwarder trustedForwarder forwarderAddrIndices expectedSwapCreatorBytecode.

(** The loop over the offsets: every offset must hold the forwarder
    found at the first one; each is zeroed once compared. *)
Fixpoint zeroForwarders (idxs : list nat) (forwarderAddr : Address)
    (code : list byte) : option (list byte) :=
  match idxs with
  | [] => Some code
  | i :: rest =>
      if bool_decide (addrAt code i = forwarderAddr)
      then zeroForwarders rest forwarderAddr (list_inserts i zeroAddress code)
      else None
  end.

(** Modelled from the spec: [CheckSwapCreatorContractCode] is declared in
    a file that is not among the sources. The check compares the
    bytecode at the address with the expected known-good value, the
    bytecode-embedded trusted forwarder set aside, and returns that
    forwarder. *)
Definition CheckSwapCreatorContractCode (ec : EthClient) (contractAddr : Address)
  : Address * option error :=
  let code := ec contractAddr in
  if bool_decide (length code = length expectedSwapCreatorBytecode) then
    let forwarderAddr :=
      match forwarderAddrIndices with
      | [] => zeroAddress
      | i :: _ => addrAt code i
      end in
    match zeroForwarders forwarderAddrIndices forwarderAddr code with
    | Some zeroed =>
        if bool_decide (zeroed = expectedSwapCreatorBytecode)
        then (forwarderAddr, None)
        else (zeroAddress, Some errInvalidSwapCreatorContract)
    | None => (zeroAddress, Some errInvalidSwapCreatorContract)
    end
  else (zeroAddress, Some errInvalidSwapCreatorContract).

(** Modelled from the spec: [VerifyDeployedParameters(handle, expected)]
    of the contract adapter, which is not among the sources: the
    forwarder embedded in the deployed code is compared with the
    expected one. *)
Definition VerifyDeployedParameters (ec : EthClient) (handle : Address)
    (expected : Address) : bool :=
  match CheckSwapCreatorContractCode ec handle with
  | (forwarderAddr, None) => bool_decide (forwarderAddr = expected)
  | (_, Some _) => false
  end.

End WithConstants.

End contracts.

(** ** The swap protocol: on-chain contract and per-swap state machine

    The contract and the state machine are not among the sources; the
    protocol write-up is. Both are modelled from the write-up and from the
    transition and entry-point tables. *)
Module protocol.

Inductive Role : Type := Maker | Taker.

Inductive SwapState : Type :=
| Created
| ContractDeployed
| CounterAssetLocked
| Ready
| Claimed
| Refunded
| Aborted.

#[global] Instance Role_eq_dec : EqDecision Role.
Proof. solve_decision. Defined.
#[global] Instance SwapState_eq_dec : EqDecision SwapState.
Proof. solve_decision. Defined.

Definition terminal (s : SwapState) : bool :=
  match s with
  | Claimed | Refunded | Aborted => true
  | _ => false
  end.

(** Secret and key derivation, at its interface: a commitment is derived
    from a secret, two commitments combine into the joint key. *)
Class Curve : Type := {
  Secret : Type;
  Commitment : Type;
  Commit : Secret -> Commitment;
  CombineCommitments : Commitment -> Commitment -> Commitment;
  Commitment_eq_dec :: EqDecision Commitment
}.

Record SwapParameters `{Curve} : Type := {
  makerCommitment : Commitment;
  takerCommitment : Commitment;
  amount : Z;
  t0 : Z;
  t1 : Z;
  nonce : Z;
  claimer : Address;
  refunder : Address
}.

(** Where the locked funds are. *)
Inductive Funds : Type := Held | PaidToClaimer | ReturnedToMaker.

#[global] Instance Funds_eq_dec : EqDecision Funds.
Proof. solve_decision. Defined.

(** The swap record the contract keeps once deployed. *)
Record Contract `{Curve} : Type := {
  params : SwapParameters;
  is_ready : bool;
  funds : Funds
}.

Inductive Event `{Curve} : Type :=
| CommitToDeploy (p : SwapParameters)
| NotifyCounterAssetLocked (lockedAmount : Z) (jointKey : Commitment)
| CallReady
| CallClaim (secret : Secret)
| CallRefund (secret : Secret)
| Cancel.

(** An event reaches the machine from one of the two parties at some time. *)
Record Input `{Curve} : Type := {
  actor : Role;
  now : Z;
  event : Event
}.

(** One swap instance: its protocol state and, once deployed, its
    contract. *)
Record Swap `{Curve} : Type := {
  state : SwapState;
  contract : option Contract
}.

Section WithCurve.
Context `{C : Curve}.

Definition held (c : Contract) : bool := bool_decide (funds c = Held).
Definition claimed (c : Contract) : bool := bool_decide (funds c = PaidToClaimer).
Definition is_maker (r : Role) : bool := bool_decide (r = Maker).

(** Modelled from the spec: the contract constructor, not among the
    sources: creates the swap record with the commitments and the two
    deadlines, funds attached. *)
Definition deploy (p : SwapParameters) : Contract :=
  {| params := p; is_ready := false; funds := Held |}.

(** Modelled from the spec: entry point [set_ready] of the contract, not
    among the sources: Maker only, before [t0], not yet ready. Like
    every entry point it acts on a swap whose funds the contract still
    holds. *)
Definition set_ready (caller : Role) (time : Z) (c : Contract) : option Contract :=
  if is_maker caller && (time <? t0 (params c)) && negb (is_ready c) && held c
  then Some {| params := params c; is_ready := true; funds := funds c |}
  else None.

(** Modelled from the spec: entry point [claim(secret)] of the contract,
    not among the sources: by the Taker or a relayer on the Taker's
    behalf, state ready, before [t1], secret matching the Taker's
    commitment; transfers the funds to the claimer. *)
Definition claim (secret : Secret) (time : Z) (c : Contract) : option Contract :=
  if is_ready c && (time <? t1 (params c))
     && bool_decide (Commit secret = takerCommitment (params c)) && held c
  then Some {| params := params c; is_ready := is_ready c; funds := PaidToClaimer |}
  else None.

(** Modelled from the spec: entry point [refund(secret)] of the contract,
    not among the sources: Maker only; before [t0] and not ready, or
    after [t1] and not claimed; secret matching the Maker's commitment;
    returns the funds to the Maker. The write-up has the same windows:
    refund before [ready] is called within [t_0], none during [t_1]
    once [ready] was called, refund again after [t_1]. *)
Definition refund (caller : Role) (secret : Secret) (time : Z) (c : Contract)
  : option Contract :=
  if is_maker caller
     && (((time <? t0 (params c)) && negb (is_ready c))
         || ((t1 (params c) <=? time) && negb (claimed c)))
     && bool_decide (Commit secret = makerCommitment (params c)) && held c
  then Some {| params := params c; is_ready := is_ready c; funds := ReturnedToMaker |}
  else None.

Definition initial : Swap := {| state := Created; contract := None |}.

Definition locked_ok (c : Contract) (lockedAmount : Z) (jointKey : Commitment) : bool :=
  (amount (params c) <=? lockedAmount)
  && bool_decide (jointKey =
       CombineCommitments (makerCommitment (params c)) (takerCommitment (params c))).

(** Modelled from the spec: the transition table of the swap state
    machine, which is not among the sources. [None] is a rejected
    transition (a policy violation). A transition that moves funds is
    taken only when the contract call behind it succeeds. Cancelling
    before any on-chain action aborts the swap. *)
Definition step (s : Swap) (i : Input) : option Swap :=
  match state s, event i, contract s with
  | Created, CommitToDeploy p, _ =>
      if is_maker (actor i)
      then Some {| state := ContractDeployed; contract := Some (deploy p) |}
      else None
  | Created, Cancel, _ =>
      Some {| state := Aborted; contract := contract s |}
  | ContractDeployed, NotifyCounterAssetLocked lockedAmount jointKey, Some c =>
      if locked_ok c lockedAmount jointKey
      then Some {| state := CounterAssetLocked; contract := Some c |}
      else None
  | CounterAssetLocked, CallReady, Some c =>
      c' ← set_ready (actor i) (now i) c;
      Some {| state := Ready; contract := Some c' |}
  | Ready, CallClaim secret, Some c =>
      c' ← claim secret (now i) c;
      Some {| state := Claimed; contract := Some c' |}
  | (ContractDeployed | CounterAssetLocked | Ready), CallRefund secret, Some c =>
      c' ← refund (actor i) secret (now i) c;
      Some {| state := Refunded; contract := Some c' |}
  | _, _, _ => None
  end.

(** A rejected transition leaves the state as it is. *)
Definition deliver (s : Swap) (i : Input) : Swap := default s (step s i).

Definition run (s : Swap) (trace : list Input) : Swap := foldl deliver s trace.

(** The protocol states an instance goes through along a trace. *)
Fixpoint visited (s : Swap) (trace : list Input) : list SwapState :=
  state s ::
  match trace with
  | [] => []
  | i :: rest => visited (deliver s i) rest
  end.

(** The set of terminal states a trace goes through. *)
Definition terminals (s : Swap) (trace : list Input) : list SwapState :=
  remove_dups (filter (fun st => terminal st = true) (visited s trace)).

(** Whether the contract of the instance accepts a call at a given time. *)
Definition refund_valid (s : Swap) (caller : Role) (secret : Secret) (time : Z) : bool :=
  match contract s with
  | Some c => bool_decide (is_Some (refund caller secret time c))
  | None => false
  end.

Definition claim_valid (s : Swap) (secret : Secret) (time : Z) : bool :=
  match contract s with
  | Some c => bool_decide (is_Some (claim secret time c))
  | None => false
  end.

(** The protocol state tells what the contract looks like: no contract
    before deployment, funds held until a claim or a refund. *)
Definition consistent (s : Swap) : Prop :=
  match state s, contract s with
  | Created, None | Aborted, None => True
  | ContractDeployed, Some c | CounterAssetLocked, Some c =>
      is_ready c = false /\ funds c = Held
  | Ready, Some c => is_ready c = true /\ funds c = Held
  | Claimed, Some c => is_ready c = true /\ funds c = PaidToClaimer
  | Refunded, Some c => funds c = ReturnedToMaker
  | _, _ => False
  end.

End WithCurve.

End protocol.

(** ** Concrete instances, used to evaluate the model *)

(** The environment constants as an [iota] enumeration would number them,
    with the public network identifiers and the default daemon ports. *)
Definition sampleDecls : common.Decls := {|
  common.Mainnet := 1;
  common.Stagenet := 2;
  common.Development := 3;
  common.MainnetChainID := 1;
  common.SepoliaChainID := 11155111;
  common.DefaultMoneroDaemonMainnetPort := 18081;
  common.DefaultMoneroDaemonStagenetPort := 38081;
  common.DefaultMoneroDaemonDevPort := 18081;
  common.homeDir := "/home/swap";
  common.path_Join := String.concat "/";
  common.HexToAddress := fun _ => zeroAddress
|}.

(** A signer that fails without a key and otherwise returns the secret
    followed by the contract address. *)
Definition sampleSign (key : ptr unit) (swapCreatorAddr : Address)
    (secret : ptr relayer.Bytes32) : outcome (list byte * option string) :=
  match key with
  | None => Returns ([], Some "missing key"%string)
  | Some _ =>
      Returns (match secret with
               | Some s => relayer.bytes s ++ swapCreatorAddr
               | None => swapCreatorAddr
               end, None)
  end.

Definition sampleRelayer : relayer.Externals := {|
  relayer.Context_ := unit;
  relayer.PrivateKey := unit;
  relayer.EthClient := unit;
  relayer.SwapCreatorSwap := Z;
  relayer.Hash := Z;
  relayer.error := string;
  relayer.createForwarderSignature := fun _ key _ swapCreatorAddr _ _ secret =>
    sampleSign key swapCreatorAddr secret
|}.

Definition sampleSecret : relayer.Bytes32 :=
  {| relayer.bytes := repeat x2a 32; relayer.bytes_len := eq_refl |}.

(** A backend that keeps its environment, contract address and chain id in
    a record and counts nothing. *)
Record sampleBackend : Type := {
  sb_env : common.Environment;
  sb_addr : Address;
  sb_chain : Z
}.

Definition sampleProtocolBackend : rpc.ProtocolBackend.t sampleBackend := {|
  rpc.ProtocolBackend.Client := Z;
  rpc.ProtocolBackend.ETHClient := fun b => (sb_chain b, b);
  rpc.ProtocolBackend.ChainID := fun c => c;
  rpc.ProtocolBackend.Env := fun b => (sb_env b, b);
  rpc.ProtocolBackend.SwapCreatorAddr := fun b => (sb_addr b, b)
|}.

Definition sampleRpc : rpc.Externals := {|
  rpc.GetVersion := "0.3.0";
  rpc.ProtocolID := "/atomic-swap/0.3";
  rpc.error := string
|}.

Definition sampleService : rpc.DaemonService bool sampleBackend :=
  {| rpc.stopServer := fun _ => true;
     rpc.pb := {| sb_env := 3; sb_addr := repeat x11 20; sb_chain := 1337 |} |}.

(** A toy curve: secrets and commitments are integers, committing doubles,
    combining adds. *)
Definition sampleCurve : protocol.Curve := {|
  protocol.Secret := Z;
  protocol.Commitment := Z;
  protocol.Commit := fun s => 2 * s;
  protocol.CombineCommitments := Z.add;
  protocol.Commitment_eq_dec := Z.eq_dec
|}.

(** The Maker's secret is 11, the Taker's 21; [t0] is 100 and [t1] 200. *)
Definition sampleParams : @protocol.SwapParameters sampleCurve :=
  @protocol.Build_SwapParameters sampleCurve
    22 42 1 100 200 7 (repeat x0b 20) (repeat x0a 20).

Definition sampleInput (who : protocol.Role) (time : Z)
    (e : @protocol.Event sampleCurve) : @protocol.Input sampleCurve :=
  @protocol.Build_Input sampleCurve who time e.

Definition sampleDeploy : @protocol.Input sampleCurve :=
  sampleInput protocol.Maker 0 (@protocol.CommitToDeploy sampleCurve sampleParams).

Definition sampleLocked : @protocol.Input sampleCurve :=
  sampleInput protocol.Taker 10 (@protocol.NotifyCounterAssetLocked sampleCurve 1 64).

Definition sampleReady : @protocol.Input sampleCurve :=
  sampleInput protocol.Maker 20 (@protocol.CallReady sampleCurve).

Definition sampleClaim (time : Z) : @protocol.Input sampleCurve :=
  sampleInput protocol.Taker time (@protocol.CallClaim sampleCurve 21).

Definition sampleRefund (time : Z) : @protocol.Input sampleCurve :=
  sampleInput protocol.Maker time (@protocol.CallRefund sampleCurve 11).

(** A small stand-in for the SwapCreator code: the forwarder is compiled in
    at offsets 2 and 24 of 46 bytes. *)
Definition sampleConstants : contracts.Constants := {|
  contracts.expectedSwapCreatorBytecode :=
    [x60; x80] ++ repeat x00 20 ++ [x73; x5b] ++ repeat x00 20 ++ [xfe; x00];
  contracts.forwarderAddrIndices := [2%nat; 24%nat]
|}.

Definition sampleForwarder : Address := repeat xb2 20.
Definition otherForwarder : Address := repeat xa0 20.

(** A chain with a SwapCreator at address [0x11..], the same contract with
    another forwarder at [0x22..], a contract whose two forwarder slots
    disagree at [0x33..], and unrelated code elsewhere. *)
Definition sampleChain : contracts.EthClient := fun addr =>
  if bool_decide (addr = repeat x11 20)
  then @contracts.swapCreatorCode sampleConstants sampleForwarder
  else if bool_decide (addr = repeat x22 20)
  then @contracts.swapCreatorCode sampleConstants otherForwarder
  else if bool_decide (addr = repeat x33 20)
  then [x60; x80] ++ sampleForwarder ++ [x73; x5b] ++ otherForwarder ++ [xfe; x00]
  else [x60; x80; x60; x40].

Definition emptyResponse : rpc.VersionResponse :=
  {| rpc.SwapdVersion := ""; rpc.P2PVersion := ""; rpc.Env := 0;
     rpc.SwapCreatorAddr := zeroAddress |}.

(** * Properties *)

(** ** [common/config.go] *)
Section common_facts.
Import common.
Context `{D : Decls}.

Lemma env_eqb_refl (env : Environment) : (env =? env) = true.
Proof. apply Z.eqb_refl. Qed.

Lemma env_not_listed (env : Environment) :
  env ∉ [Mainnet; Stagenet; Development] ->
  (env =? Mainnet) = false /\ (env =? Stagenet) = false /\ (env =? Development) = false.
Proof.
  intros Hnot. repeat split; apply Z.eqb_neq; intros ->; apply Hnot;
    repeat first [ apply list_elem_of_here | apply list_elem_of_further ].
Qed.

(** C9. For each of Mainnet, Stagenet and Development,
    [ConfigDefaultsForEnv] returns a non-nil [Config] whose [Env] is the
    environment asked for; [SwapTimeoutFromEnv] is one hour on Mainnet and
    Stagenet and two minutes on Development; on any other environment
    value the two functions and [DefaultMoneroPortFromEnv] panic. The
    three constants are distinct, as the cases of a [switch] must be. *)
Theorem config_defaults_by_environment :
  NoDup [Mainnet; Stagenet; Development] ->
  forall env : Environment,
    (env ∈ [Mainnet; Stagenet; Development] ->
       exists cfg, ConfigDefaultsForEnv env = Returns (Some cfg) /\ Env cfg = env)
    /\ SwapTimeoutFromEnv Mainnet = Returns 3600000000000
    /\ SwapTimeoutFromEnv Stagenet = Returns 3600000000000
    /\ SwapTimeoutFromEnv Development = Returns 120000000000
    /\ (env ∉ [Mainnet; Stagenet; Development] ->
          ConfigDefaultsForEnv env = Panics "invalid environment"
          /\ SwapTimeoutFromEnv env = Panics "invalid environment"
          /\ DefaultMoneroPortFromEnv env = Panics "invalid environment").
Proof.
  intros Hdistinct env.
  apply NoDup_cons in Hdistinct as [HM Hdistinct].
  apply NoDup_cons in Hdistinct as [HS _].
  assert (HDM : (Development =? Mainnet) = false).
  { apply Z.eqb_neq. intros Heq. apply HM. rewrite <- Heq.
    apply list_elem_of_further, list_elem_of_here. }
  assert (HDS : (Development =? Stagenet) = false).
  { apply Z.eqb_neq. intros Heq. apply HS. rewrite <- Heq.
    apply list_elem_of_here. }
  split; [| split; [| split; [| split]]].
  - intros Hin. unfold ConfigDefaultsForEnv.
    destruct (env =? Mainnet) eqn:E1.
    { apply Z.eqb_eq in E1. eexists. split; [reflexivity | symmetry; exact E1]. }
    destruct (env =? Stagenet) eqn:E2.
    { apply Z.eqb_eq in E2. eexists. split; [reflexivity | symmetry; exact E2]. }
    destruct (env =? Development) eqn:E3.
    { apply Z.eqb_eq in E3. eexists. split; [reflexivity | symmetry; exact E3]. }
    exfalso. apply Z.eqb_neq in E1, E2, E3.
    repeat (apply elem_of_cons in Hin as [Hin | Hin]; [congruence |]).
    by apply elem_of_nil in Hin.
  - unfold SwapTimeoutFromEnv. by rewrite env_eqb_refl.
  - unfold SwapTimeoutFromEnv. rewrite env_eqb_refl. by rewrite orb_true_r.
  - unfold SwapTimeoutFromEnv. by rewrite HDM, HDS, env_eqb_refl.
  - intros Hnot. destruct (env_not_listed env Hnot) as (E1 & E2 & E3).
    unfold ConfigDefaultsForEnv, SwapTimeoutFromEnv, DefaultMoneroPortFromEnv.
    by rewrite E1, E2, E3.
Qed.

End common_facts.

Lemma sampleDecls_distinct :
  NoDup [@common.Mainnet sampleDecls; @common.Stagenet sampleDecls;
         @common.Development sampleDecls].
Proof. change (NoDup [1; 2; 3]). apply (bool_decide_unpack _). vm_compute. exact I. Defined.

Lemma config_defaults_by_environment_witness :
  (exists cfg, @common.ConfigDefaultsForEnv sampleDecls 2 = Returns (Some cfg)
               /\ common.Env cfg = 2)
  /\ @common.ConfigDefaultsForEnv sampleDecls 0 = Panics "invalid environment".
Proof.
  destruct (config_defaults_by_environment (D := sampleDecls) sampleDecls_distinct 2)
    as (Hin & _).
  destruct (config_defaults_by_environment (D := sampleDecls) sampleDecls_distinct 0)
    as (_ & _ & _ & _ & Hout).
  split.
  - apply Hin. change (2 ∈ [1; 2; 3]). apply (bool_decide_unpack _). vm_compute. exact I.
  - apply Hout. change (0 ∉ [1; 2; 3]). apply (bool_decide_unpack _). vm_compute. exact I.
Defined.

(** ** The relayer fee and the relay-claim request *)

(** C6. The relayer fee is one constant: [FeeWei] is [9e15] wei, which fits
    the [int64] that [big.NewInt] takes, and [FeeEth], the same amount in
    ether, is exactly 0.009. Neither takes the swap as an argument. *)
Theorem relayer_fee_fixed :
  relayer.FeeWei = 9000000000000000
  /\ 0 <= relayer.FeeWei <= relayer.int64_max
  /\ (relayer.FeeEth == 9 # 1000)%Q
  /\ Qred relayer.FeeEth = (9 # 1000)%Q.
Proof.
  split; [reflexivity |].
  split; [unfold relayer.FeeWei, relayer.int64_max; lia |].
  split; [| reflexivity].
  apply Qred_eq_iff. reflexivity.
Qed.

Section relayer_facts.
Import relayer.
Context `{X : Externals}.

Implicit Types (ctx : Context_) (key : ptr PrivateKey) (ec : ptr EthClient).
Implicit Types (swapCreatorAddr forwarderAddr : Address).
Implicit Types (swap : ptr SwapCreatorSwap) (secret : ptr Bytes32).

(** What the function returns once the signer has returned. *)
Lemma CreateRelayClaimRequest_signed
    ctx key ec swapCreatorAddr forwarderAddr swap secret sig serr :
  createForwarderSignature ctx key ec swapCreatorAddr forwarderAddr swap secret
    = Returns (sig, serr) ->
  CreateRelayClaimRequest ctx key ec swapCreatorAddr forwarderAddr swap secret =
    match serr with
    | Some err => Returns (None, Some err)
    | None =>
        match secret with
        | Some s => Returns (Some {| OfferID := None;
                                     SwapCreatorAddr := swapCreatorAddr;
                                     Swap := swap;
                                     Secret := bytes s;
                                     Signature := sig |}, None)
        | None => Panics "runtime error: invalid memory address or nil pointer dereference"
        end
    end.
Proof.
  intros Hsig. unfold CreateRelayClaimRequest. rewrite Hsig. cbn.
  destruct serr as [err |]; [reflexivity |].
  destruct secret as [s |]; reflexivity.
Qed.

(** A call that returns has had its signer return. *)
Lemma CreateRelayClaimRequest_returns_inv
    ctx key ec swapCreatorAddr forwarderAddr swap secret res :
  CreateRelayClaimRequest ctx key ec swapCreatorAddr forwarderAddr swap secret
    = Returns res ->
  exists sig serr,
    createForwarderSignature ctx key ec swapCreatorAddr forwarderAddr swap secret
      = Returns (sig, serr).
Proof.
  unfold CreateRelayClaimRequest.
  destruct (createForwarderSignature _ _ _ _ _ _ _) as [[sig serr] | msg]; cbn.
  - intros _. by exists sig, serr.
  - discriminate.
Qed.

(** C7. A request that [CreateRelayClaimRequest] returns has its offer
    identifier unset ([nil]). *)
Theorem CreateRelayClaimRequest_OfferID_blank
    ctx key ec swapCreatorAddr forwarderAddr swap secret req err :
  CreateRelayClaimRequest ctx key ec swapCreatorAddr forwarderAddr swap secret
    = Returns (Some req, err) ->
  OfferID req = None.
Proof.
  intros Hret.
  destruct (CreateRelayClaimRequest_returns_inv _ _ _ _ _ _ _ _ Hret)
    as (sig & serr & Hsig).
  rewrite (CreateRelayClaimRequest_signed _ _ _ _ _ _ _ _ _ Hsig) in Hret.
  destruct serr as [e |]; [discriminate |].
  destruct secret as [s |]; [| discriminate].
  by inversion Hret.
Qed.

(** C10. When [CreateRelayClaimRequest] returns, the request is [nil]
    exactly when the error is not, and the error is not [nil] exactly when
    creating the forwarder signature failed, in which case it is that
    error. A returned request carries the given contract address and swap,
    the 32 bytes of the given secret, and the signature the signer
    produced for these arguments. Conversely the call returns whenever
    the signer failed, or succeeded on a non-nil secret. *)
Theorem CreateRelayClaimRequest_result
    ctx key ec swapCreatorAddr forwarderAddr swap secret :
  (forall res,
     CreateRelayClaimRequest ctx key ec swapCreatorAddr forwarderAddr swap secret
       = Returns res ->
     exists sig serr,
       createForwarderSignature ctx key ec swapCreatorAddr forwarderAddr swap secret
         = Returns (sig, serr)
       /\ (res.1 = None <-> res.2 <> None)
       /\ (res.2 <> None <-> serr <> None)
       /\ res.2 = serr
       /\ forall req, res.1 = Some req ->
            exists s, secret = Some s
              /\ SwapCreatorAddr req = swapCreatorAddr
              /\ Swap req = swap
              /\ Secret req = bytes s
              /\ length (Secret req) = 32%nat
              /\ Signature req = sig)
  /\ (forall sig err,
        createForwarderSignature ctx key ec swapCreatorAddr forwarderAddr swap secret
          = Returns (sig, Some err) ->
        CreateRelayClaimRequest ctx key ec swapCreatorAddr forwarderAddr swap secret
          = Returns (None, Some err))
  /\ (forall sig s,
        createForwarderSignature ctx key ec swapCreatorAddr forwarderAddr swap secret
          = Returns (sig, None) ->
        secret = Some s ->
        exists req,
          CreateRelayClaimRequest ctx key ec swapCreatorAddr forwarderAddr swap secret
            = Returns (Some req, None)).
Proof.
  split; [| split].
  - intros res Hret.
    destruct (CreateRelayClaimRequest_returns_inv _ _ _ _ _ _ _ _ Hret)
      as (sig & serr & Hsig).
    exists sig, serr. split; [exact Hsig |].
    rewrite (CreateRelayClaimRequest_signed _ _ _ _ _ _ _ _ _ Hsig) in Hret.
    destruct serr as [e |].
    + inversion Hret; subst res; cbn.
      split; [split; congruence |].
      split; [split; congruence |].
      split; [reflexivity |].
      intros req Hreq. discriminate.
    + destruct secret as [s |]; [| discriminate].
      inversion Hret; subst res; cbn.
      split; [split; congruence |].
      split; [split; congruence |].
      split; [reflexivity |].
      intros req Hreq. inversion Hreq; subst req; cbn.
      exists s. repeat split. apply bytes_len.
  - intros sig err Hsig.
    by rewrite (CreateRelayClaimRequest_signed _ _ _ _ _ _ _ _ _ Hsig).
  - intros sig s Hsig ->.
    rewrite (CreateRelayClaimRequest_signed _ _ _ _ _ _ _ _ _ Hsig).
    by eexists.
Qed.

End relayer_facts.

Lemma CreateRelayClaimRequest_OfferID_blank_witness :
  exists req,
    @relayer.CreateRelayClaimRequest sampleRelayer tt (Some tt) (Some tt)
      (repeat x11 20) zeroAddress (Some 7) (Some sampleSecret)
      = Returns (Some req, None)
    /\ relayer.OfferID req = None.
Proof.
  eexists. split.
  - vm_compute. reflexivity.
  - eapply (@CreateRelayClaimRequest_OfferID_blank sampleRelayer tt (Some tt) (Some tt)
              (repeat x11 20) zeroAddress (Some 7) (Some sampleSecret)).
    vm_compute. reflexivity.
Defined.

Lemma CreateRelayClaimRequest_result_witness :
  (exists req,
     @relayer.CreateRelayClaimRequest sampleRelayer tt (Some tt) (Some tt)
       (repeat x11 20) zeroAddress (Some 7) (Some sampleSecret)
       = Returns (Some req, None))
  /\ @relayer.CreateRelayClaimRequest sampleRelayer tt None (Some tt)
       (repeat x11 20) zeroAddress (Some 7) (Some sampleSecret)
       = Returns (None, Some "missing key"%string).
Proof.
  split.
  - destruct (@CreateRelayClaimRequest_result sampleRelayer tt (Some tt) (Some tt)
                (repeat x11 20) zeroAddress (Some 7) (Some sampleSecret))
      as (_ & _ & Hok).
    eapply Hok; vm_compute; reflexivity.
  - destruct (@CreateRelayClaimRequest_result sampleRelayer tt None (Some tt)
                (repeat x11 20) zeroAddress (Some 7) (Some sampleSecret))
      as (_ & Hfail & _).
    eapply Hfail. vm_compute. reflexivity.
Defined.

(** ** [rpc/daemon.go] *)
Section rpc_facts.
Import rpc.
Context `{X : Externals} {S B : Type} `{PB : ProtocolBackend.t B}.

(** Whatever the backend's methods do, [Version] returns no error, sets
    every field of the response and calls the three methods once each, in
    the order of the source. *)
Lemma Version_unfold (s : DaemonService S B) (resp : VersionResponse) :
  let ec := ProtocolBackend.ETHClient (pb s) in
  let env := ProtocolBackend.Env ec.2 in
  let addr := ProtocolBackend.SwapCreatorAddr env.2 in
  Version s resp =
    (addr.2,
     {| SwapdVersion := GetVersion;
        P2PVersion := Sprintf_s_d ProtocolID (ProtocolBackend.ChainID ec.1);
        Env := env.1;
        SwapCreatorAddr := addr.1 |},
     None).
Proof. reflexivity. Qed.

(** C8. [Version] returns a [nil] error; the response's [Env] is the
    backend's [Env()] and its [SwapCreatorAddr] the backend's
    [SwapCreatorAddr()]; the backend is left as it was, its three methods
    being accessors. *)
Theorem Version_reports_backend
    (RO : ProtocolBackend.Accessors B)
    (s : DaemonService S B) (resp : VersionResponse) :
  (Version s resp).2 = None
  /\ Env (Version s resp).1.2 = (ProtocolBackend.Env (pb s)).1
  /\ SwapCreatorAddr (Version s resp).1.2 = (ProtocolBackend.SwapCreatorAddr (pb s)).1
  /\ (Version s resp).1.1 = pb s.
Proof.
  rewrite Version_unfold. cbn.
  rewrite !ProtocolBackend.SwapCreatorAddr_reads, !ProtocolBackend.Env_reads,
    !ProtocolBackend.ETHClient_reads.
  repeat split.
Qed.

End rpc_facts.

Lemma sampleProtocolBackend_accessors :
  @rpc.ProtocolBackend.Accessors sampleBackend sampleProtocolBackend.
Proof. split; intros b; reflexivity. Defined.

Lemma Version_reports_backend_witness :
  rpc.Env (@rpc.Version sampleRpc bool sampleBackend sampleProtocolBackend
             sampleService emptyResponse).1.2 = 3
  /\ (@rpc.Version sampleRpc bool sampleBackend sampleProtocolBackend
        sampleService emptyResponse).1.1 = rpc.pb sampleService.
Proof.
  destruct (@Version_reports_backend sampleRpc bool sampleBackend sampleProtocolBackend
              sampleProtocolBackend_accessors sampleService emptyResponse)
    as (_ & Henv & _ & Hsame).
  split; [exact Henv | exact Hsame].
Defined.

(** ** The swap protocol *)
Section protocol_facts.
Import protocol.
Context `{C : Curve}.

Implicit Types (s : Swap) (c : Contract) (i : Input) (trace : list Input).

Lemma set_ready_Some caller time c c' :
  set_ready caller time c = Some c' ->
  caller = Maker /\ time < t0 (params c) /\ is_ready c = false /\ funds c = Held
  /\ c' = {| params := params c; is_ready := true; funds := funds c |}.
Proof.
  unfold set_ready, is_maker, held. intros H.
  destruct (bool_decide (caller = Maker)) eqn:E1; [| discriminate].
  destruct (time <? t0 (params c)) eqn:E2; [| discriminate].
  destruct (is_ready c) eqn:E3; [discriminate |].
  destruct (bool_decide (funds c = Held)) eqn:E4; [| discriminate].
  apply bool_decide_eq_true in E1, E4. apply Z.ltb_lt in E2.
  cbn in H. by inversion H.
Qed.

Lemma claim_Some secret time c c' :
  claim secret time c = Some c' <->
  is_ready c = true /\ time < t1 (params c)
  /\ Commit secret = takerCommitment (params c) /\ funds c = Held
  /\ c' = {| params := params c; is_ready := is_ready c; funds := PaidToClaimer |}.
Proof.
  unfold claim, held. split.
  - intros H.
    destruct (is_ready c) eqn:E1; [| discriminate].
    destruct (time <? t1 (params c)) eqn:E2; [| discriminate].
    destruct (bool_decide (Commit secret = takerCommitment (params c))) eqn:E3;
      [| discriminate].
    destruct (bool_decide (funds c = Held)) eqn:E4; [| discriminate].
    apply bool_decide_eq_true in E3, E4. apply Z.ltb_lt in E2.
    cbn in H. by inversion H.
  - intros (E1 & E2 & E3 & E4 & ->).
    apply Z.ltb_lt in E2. rewrite E1, E2.
    by rewrite !bool_decide_eq_true_2.
Qed.

Lemma refund_Some caller secret time c c' :
  refund caller secret time c = Some c' <->
  caller = Maker
  /\ ((time < t0 (params c) /\ is_ready c = false)
      \/ (t1 (params c) <= time /\ funds c <> PaidToClaimer))
  /\ Commit secret = makerCommitment (params c) /\ funds c = Held
  /\ c' = {| params := params c; is_ready := is_ready c; funds := ReturnedToMaker |}.
Proof.
  unfold refund, is_maker, held, claimed. split.
  - intros H.
    destruct (bool_decide (caller = Maker)) eqn:E1; [| discriminate].
    destruct (bool_decide (Commit secret = makerCommitment (params c))) eqn:E3;
      [| by rewrite andb_false_r in H].
    destruct (bool_decide (funds c = Held)) eqn:E4;
      [| by rewrite andb_false_r in H].
    apply bool_decide_eq_true in E1, E3, E4.
    destruct (((time <? t0 (params c)) && negb (is_ready c))
              || ((t1 (params c) <=? time)
                  && negb (bool_decide (funds c = PaidToClaimer)))) eqn:E2;
      [| discriminate].
    cbn in H. inversion H. repeat split; try done.
    apply orb_true_iff in E2 as [E2 | E2]; apply andb_true_iff in E2 as [Ea Eb];
      apply negb_true_iff in Eb.
    + left. split; [by apply Z.ltb_lt | done].
    + right. split; [by apply Z.leb_le | by apply bool_decide_eq_false in Eb].
  - intros (E1 & E2 & E3 & E4 & ->).
    rewrite (bool_decide_eq_true_2 _ E1), (bool_decide_eq_true_2 _ E3),
      (bool_decide_eq_true_2 _ E4).
    destruct E2 as [[Ea Eb] | [Ea Eb]].
    + apply Z.ltb_lt in Ea. by rewrite Ea, Eb.
    + apply Z.leb_le in Ea. rewrite Ea, (bool_decide_eq_false_2 _ Eb).
      by rewrite orb_true_r.
Qed.

Lemma consistent_initial : consistent initial.
Proof. exact I. Qed.

Lemma consistent_step s i s' : consistent s -> step s i = Some s' -> consistent s'.
Proof.
  unfold consistent, step.
  destruct s as [st oc]; cbn.
  destruct st, (event i) as [p | amt jk | | sec | sec |], oc as [c |];
    cbn; intros Hc Hs; try discriminate; try contradiction;
    repeat match type of Hs with
      | (if ?b then _ else _) = Some _ => destruct b; [| discriminate]
      end;
    try (inversion Hs; subst s'; cbn; by auto).
  all: match type of Hs with
       | (match ?o with Some _ => _ | None => _ end) = Some _ =>
           destruct o as [c' |] eqn:Hcall; [| discriminate]
       | (mbind _ ?o) = Some _ =>
           destruct o as [c' |] eqn:Hcall; [| discriminate]
       end; cbn in Hs; inversion Hs; subst s'; cbn.
  all: first
    [ apply set_ready_Some in Hcall as (_ & _ & _ & Hf & ->); cbn; by auto
    | apply claim_Some in Hcall as (Hr & _ & _ & _ & ->); cbn; by auto
    | apply refund_Some in Hcall as (_ & _ & _ & _ & ->); cbn; by auto ].
Qed.

Lemma consistent_deliver s i : consistent s -> consistent (deliver s i).
Proof.
  intros Hc. unfold deliver. destruct (step s i) as [s' |] eqn:Hs; cbn.
  - by eapply consistent_step.
  - done.
Qed.

Lemma consistent_run trace s : consistent s -> consistent (run s trace).
Proof.
  revert s. induction trace as [| i trace IH]; intros s Hc; cbn.
  - done.
  - apply IH. by apply consistent_deliver.
Qed.

Lemma refund_valid_true s caller secret time :
  refund_valid s caller secret time = true <->
  exists c c', contract s = Some c /\ refund caller secret time c = Some c'.
Proof.
  unfold refund_valid. destruct (contract s) as [c |].
  - rewrite bool_decide_eq_true. split.
    + intros [c' Hc']. by exists c, c'.
    + intros (c0 & c' & [= <-] & Hc'). by exists c'.
  - split; [discriminate | by intros (c & c' & H & _)].
Qed.

Lemma claim_valid_true s secret time :
  claim_valid s secret time = true <->
  exists c c', contract s = Some c /\ claim secret time c = Some c'.
Proof.
  unfold claim_valid. destruct (contract s) as [c |].
  - rewrite bool_decide_eq_true. split.
    + intros [c' Hc']. by exists c, c'.
    + intros (c0 & c' & [= <-] & Hc'). by exists c'.
  - split; [discriminate | by intros (c & c' & H & _)].
Qed.

(** In a consistent instance the contract holds the funds exactly in the
    three states between deployment and the end of the swap. *)
Lemma consistent_held s c :
  consistent s -> contract s = Some c -> funds c = Held ->
  (state s ∈ [ContractDeployed; CounterAssetLocked] /\ is_ready c = false)
  \/ (state s = Ready /\ is_ready c = true).
Proof.
  unfold consistent. intros Hc Hs Hf. rewrite Hs in Hc.
  destruct (state s); try contradiction.
  - left. destruct Hc. split; [apply list_elem_of_here | done].
  - left. destruct Hc.
    split; [apply list_elem_of_further, list_elem_of_here | done].
  - right. by destruct Hc.
  - destruct Hc; congruence.
  - congruence.
Qed.

(** C1. At every point of every run of a swap instance: the contract
    accepts a refund only in state ContractDeployed or CounterAssetLocked
    before [t0], or from [t1] on with no claim made; it accepts a claim
    only in state Ready before [t1]; and it never accepts both at the same
    time. Within these windows the Maker's refund with the Maker's secret,
    and a claim with the Taker's secret, are accepted. *)
Theorem refund_windows_exclude_claim_window
    trace (caller : Role) (secret secret' : Secret) (time : Z) :
  let s := run initial trace in
  (refund_valid s caller secret time = true ->
     exists c, contract s = Some c
       /\ ((state s ∈ [ContractDeployed; CounterAssetLocked] /\ time < t0 (params c))
           \/ (t1 (params c) <= time /\ state s <> Claimed /\ claimed c = false)))
  /\ (claim_valid s secret' time = true ->
        exists c, contract s = Some c /\ state s = Ready /\ time < t1 (params c))
  /\ ~ (refund_valid s caller secret time = true
         /\ claim_valid s secret' time = true)
  /\ (forall c, contract s = Some c ->
        Commit secret = makerCommitment (params c) ->
        (state s ∈ [ContractDeployed; CounterAssetLocked] /\ time < t0 (params c))
        \/ (state s ∈ [ContractDeployed; CounterAssetLocked; Ready]
             /\ t1 (params c) <= time) ->
        refund_valid s Maker secret time = true)
  /\ (forall c, contract s = Some c ->
        Commit secret' = takerCommitment (params c) ->
        state s = Ready -> time < t1 (params c) ->
        claim_valid s secret' time = true).
Proof.
  intros s.
  assert (Hcons : consistent s) by apply consistent_run, consistent_initial.
  assert (Hrefund : refund_valid s caller secret time = true ->
     exists c, contract s = Some c
       /\ ((state s ∈ [ContractDeployed; CounterAssetLocked] /\ time < t0 (params c))
           \/ (t1 (params c) <= time /\ state s <> Claimed /\ claimed c = false))).
  { intros Hv. apply refund_valid_true in Hv as (c & c' & Hs & Hr).
    apply refund_Some in Hr as (_ & Hwin & _ & Hheld & _).
    exists c. split; [done |].
    destruct (consistent_held s c Hcons Hs Hheld) as [[Hst Hnr] | [Hst Hr]];
      destruct Hwin as [[Hlt Hnr'] | [Hge Hnc]].
    - by left.
    - right. split; [done |]. split.
      + intros Heq. revert Hst.
        rewrite Heq, !elem_of_cons, elem_of_nil. intuition discriminate.
      + unfold claimed. by apply bool_decide_eq_false_2.
    - congruence.
    - right. split; [done |]. split; [congruence |].
      unfold claimed. by apply bool_decide_eq_false_2. }
  assert (Hclaim : claim_valid s secret' time = true ->
        exists c, contract s = Some c /\ state s = Ready /\ time < t1 (params c)).
  { intros Hv. apply claim_valid_true in Hv as (c & c' & Hs & Hcl).
    apply claim_Some in Hcl as (Hr & Hlt & _ & Hheld & _).
    exists c. split; [done |].
    destruct (consistent_held s c Hcons Hs Hheld) as [[_ Hnr] | [Hst _]];
      [congruence | done]. }
  split; [exact Hrefund |]. split; [exact Hclaim |]. split; [| split].
  - intros [Hr Hc].
    destruct (Hrefund Hr) as (c & Hs & Hwin).
    destruct (Hclaim Hc) as (c0 & Hs0 & Hst & Hlt).
    assert (c0 = c) by congruence. subst c0.
    destruct Hwin as [[Hin _] | [Hge _]]; [| lia].
    rewrite Hst in Hin. revert Hin.
    rewrite !elem_of_cons, elem_of_nil. intuition discriminate.
  - intros c Hs Hsec Hwin. apply refund_valid_true.
    exists c. eexists. split; [done |]. apply refund_Some.
    unfold consistent in Hcons. rewrite Hs in Hcons.
    assert (Hheld : funds c = Held /\
              (state s ∈ [ContractDeployed; CounterAssetLocked] -> is_ready c = false)).
    { destruct Hwin as [[Hin _] | [Hin _]]; revert Hin;
        rewrite !elem_of_cons, elem_of_nil;
        destruct (state s); try contradiction; intuition congruence. }
    destruct Hheld as [Hheld Hnr].
    repeat split; try done.
    destruct Hwin as [[Hin Hlt] | [_ Hge]].
    + left. auto.
    + right. split; [done | congruence].
  - intros c Hs Hsec Hst Hlt. apply claim_valid_true.
    exists c. eexists. split; [done |]. apply claim_Some.
    unfold consistent in Hcons. rewrite Hs, Hst in Hcons.
    destruct Hcons. repeat split; done.
Qed.

(** *** Terminal states *)

Lemma terminal_absorbing s i : terminal (state s) = true -> step s i = None.
Proof.
  unfold step. destruct (state s); try discriminate; intros _;
    by destruct (event i), (contract s).
Qed.

Lemma deliver_terminal s i : terminal (state s) = true -> deliver s i = s.
Proof. intros Ht. unfold deliver. by rewrite terminal_absorbing. Qed.

Lemma visited_terminal trace s st :
  terminal (state s) = true -> st ∈ visited s trace -> st = state s.
Proof.
  revert s. induction trace as [| i trace IH]; intros s Ht; cbn.
  - rewrite elem_of_cons, elem_of_nil. intuition.
  - rewrite elem_of_cons, (deliver_terminal s i Ht). intros [-> | Hin]; [done |].
    by apply IH.
Qed.

Lemma visited_head s trace : state s ∈ visited s trace.
Proof. destruct trace; apply list_elem_of_here. Qed.

Lemma run_in_visited trace s : state (run s trace) ∈ visited s trace.
Proof.
  revert s. induction trace as [| i trace IH]; intros s; cbn.
  - apply list_elem_of_here.
  - apply list_elem_of_further, IH.
Qed.

(** Two terminal states met along one trace are the same state. *)
Lemma visited_terminal_unique trace s st st' :
  st ∈ visited s trace -> st' ∈ visited s trace ->
  terminal st = true -> terminal st' = true -> st = st'.
Proof.
  revert s. induction trace as [| i trace IH]; intros s; cbn.
  - rewrite !elem_of_cons, !elem_of_nil. intuition congruence.
  - rewrite !elem_of_cons. intros [-> | Hin] [-> | Hin'] Ht Ht'.
    + done.
    + symmetry. apply (visited_terminal (i :: trace) s st' Ht).
      cbn. by apply list_elem_of_further.
    + apply (visited_terminal (i :: trace) s st Ht').
      cbn. by apply list_elem_of_further.
    + by eapply IH.
Qed.

Lemma elem_of_terminals s trace st :
  st ∈ terminals s trace <-> st ∈ visited s trace /\ terminal st = true.
Proof.
  unfold terminals. rewrite elem_of_remove_dups, list_elem_of_filter. tauto.
Qed.

Lemma terminals_length_le_1 s trace : (length (terminals s trace) <= 1)%nat.
Proof.
  assert (Hnd : NoDup (terminals s trace)) by apply NoDup_remove_dups.
  assert (Huniq : forall st st', st ∈ terminals s trace -> st' ∈ terminals s trace ->
                                 st = st').
  { intros st st' [Hin Ht]%elem_of_terminals [Hin' Ht']%elem_of_terminals.
    by eapply visited_terminal_unique. }
  destruct (terminals s trace) as [| a [| b l]]; cbn; [lia | lia |].
  exfalso. apply NoDup_cons in Hnd as [Hnotin _]. apply Hnotin.
  rewrite (Huniq a b); [apply list_elem_of_here | apply list_elem_of_here |].
  apply list_elem_of_further, list_elem_of_here.
Qed.

(** An instance that is not finished can be finished in one step: before
    deployment by cancelling, afterwards by the Maker's refund at [t1]. *)
Lemma finish_step s :
  consistent s ->
  (forall c, contract s = Some c ->
     exists secret, Commit secret = makerCommitment (params c)) ->
  terminal (state s) = false ->
  exists i, terminal (state (deliver s i)) = true.
Proof.
  intros Hcons Hsecret Hnt.
  destruct (contract s) as [c |] eqn:Hc.
  - destruct (Hsecret c eq_refl) as [secret Hsec].
    assert (Hheld : funds c = Held).
    { unfold consistent in Hcons. rewrite Hc in Hcons.
      destruct (state s); try discriminate; try contradiction; by destruct Hcons. }
    assert (Hr : refund Maker secret (t1 (params c)) c =
                 Some {| params := params c; is_ready := is_ready c;
                         funds := ReturnedToMaker |}).
    { apply refund_Some. repeat split; try done.
      right. split; [lia | congruence]. }
    exists {| actor := Maker; now := t1 (params c); event := CallRefund secret |}.
    destruct (consistent_held s c Hcons Hc Hheld) as [[Hst _] | [Hst _]].
    + unfold deliver, step. cbn. rewrite Hc.
      revert Hst. rewrite !elem_of_cons, elem_of_nil.
      intros [-> | [-> | []]]; cbn; by rewrite Hr.
    + unfold deliver, step. cbn. rewrite Hc, Hst. cbn. by rewrite Hr.
  - exists {| actor := Maker; now := 0; event := Cancel |}.
    unfold consistent in Hcons. rewrite Hc in Hcons.
    unfold deliver, step. cbn.
    destruct (state s); try discriminate; try contradiction; done.
Qed.

(** C2. Along every trace of a swap instance no two different terminal
    states are met. A run that has reached a terminal state has met
    exactly one of Claimed, Refunded and Aborted, namely that one; every
    further event is rejected and the instance stays as it is, whatever
    follows. And every run reaches one: with the Maker holding the secret
    of her commitment, any trace extends to a finished run, on which
    exactly one terminal state is met. *)
Theorem terminal_state_exactly_one trace :
  (length (terminals initial trace) <= 1)%nat
  /\ (forall st st', st ∈ visited initial trace -> st' ∈ visited initial trace ->
        terminal st = true -> terminal st' = true -> st = st')
  /\ (terminal (state (run initial trace)) = true ->
        terminals initial trace = [state (run initial trace)]
        /\ forall more,
             run initial (trace ++ more) = run initial trace
             /\ terminals initial (trace ++ more) = [state (run initial trace)]
             /\ forall i, step (run initial trace) i = None)
  /\ ((forall c, contract (run initial trace) = Some c ->
         exists secret, Commit secret = makerCommitment (params c)) ->
      exists more,
        terminal (state (run initial (trace ++ more))) = true
        /\ terminals initial (trace ++ more) = [state (run initial (trace ++ more))]
        /\ length (terminals initial (trace ++ more)) = 1%nat).
Proof.
  split; [apply terminals_length_le_1 |].
  split; [intros st st'; apply visited_terminal_unique |].
  assert (Hone : forall tr, terminal (state (run initial tr)) = true ->
                   terminals initial tr = [state (run initial tr)]).
  { intros tr Htr.
    assert (Hin : state (run initial tr) ∈ terminals initial tr).
    { apply elem_of_terminals. split; [apply run_in_visited | done]. }
    pose proof (terminals_length_le_1 initial tr) as Hlen.
    destruct (terminals initial tr) as [| a [| b l]]; cbn in Hlen.
    - by apply elem_of_nil in Hin.
    - apply list_elem_of_singleton in Hin. by rewrite Hin.
    - lia. }
  split.
  - intros Ht.
    assert (Hstay : forall more, run initial (trace ++ more) = run initial trace).
    { intros more. unfold run. rewrite foldl_app. fold (run initial trace).
      generalize dependent (run initial trace). intros s Hs.
      induction more as [| i more IH]; cbn; [done |].
      by rewrite (deliver_terminal s i Hs). }
    split; [by apply Hone |].
    intros more. split; [apply Hstay |]. split.
    + rewrite <- (Hstay more). apply Hone. by rewrite Hstay.
    + intros i. by apply terminal_absorbing.
  - intros Hsecret.
    assert (Hext : exists more, terminal (state (run initial (trace ++ more))) = true).
    { destruct (terminal (state (run initial trace))) eqn:Ht.
      - exists []. by rewrite app_nil_r.
      - destruct (finish_step (run initial trace)) as [i Hi];
          [apply consistent_run, consistent_initial | done | done |].
        exists [i]. unfold run. rewrite foldl_app. exact Hi. }
    destruct Hext as [more Hmore]. exists more.
    split; [done |]. split; [by apply Hone |].
    by rewrite (Hone _ Hmore).
Qed.

End protocol_facts.

Lemma refund_windows_exclude_claim_window_witness :
  exists c,
    protocol.contract (protocol.run protocol.initial [sampleDeploy]) = Some c
    /\ ((protocol.state (protocol.run protocol.initial [sampleDeploy])
           ∈ [protocol.ContractDeployed; protocol.CounterAssetLocked]
         /\ 50 < protocol.t0 (protocol.params c))
        \/ (protocol.t1 (protocol.params c) <= 50
            /\ protocol.state (protocol.run protocol.initial [sampleDeploy])
                 <> protocol.Claimed
            /\ protocol.claimed c = false)).
Proof.
  destruct (@refund_windows_exclude_claim_window sampleCurve [sampleDeploy]
              protocol.Maker 11 21 50) as (Hrefund & _).
  apply Hrefund. vm_compute. reflexivity.
Defined.

Lemma terminal_state_exactly_one_witness :
  protocol.terminals protocol.initial
    [sampleDeploy; sampleLocked; sampleReady; sampleClaim 30; sampleRefund 250]
  = [protocol.Claimed]
  /\ exists more,
       length (protocol.terminals protocol.initial ([sampleDeploy] ++ more)) = 1%nat.
Proof.
  split.
  - destruct (@terminal_state_exactly_one sampleCurve
                [sampleDeploy; sampleLocked; sampleReady; sampleClaim 30])
      as (_ & _ & Habs & _).
    destruct (Habs ltac:(vm_compute; reflexivity)) as (_ & Hmore).
    destruct (Hmore [sampleRefund 250]) as (_ & Hterm & _).
    exact Hterm.
  - destruct (@terminal_state_exactly_one sampleCurve [sampleDeploy])
      as (_ & _ & _ & Hext).
    destruct Hext as (more & _ & _ & Hlen).
    + intros c [= <-]. exists 11. reflexivity.
    + by exists more.
Defined.

Section maker_timeout.
Import protocol.
Context `{C : Curve}.



End maker_timeout.



(** ** The deployed-bytecode check *)
Section code_slices.
Import contracts.
Local Open Scope nat_scope.

Implicit Types (code c : list byte) (a b : Address) (i j k : nat).

Lemma lookup_addrAt code i k :
  addrAt code i !! k = if decide (k < ethAddrByteLen) then code !! (i + k) else None.
Proof. unfold addrAt. by rewrite lookup_take, lookup_drop. Qed.

Lemma lookup_inserts a i c k :
  list_inserts i a c !! k =
    if decide (i <= k < i + length a /\ k < length c) then a !! (k - i) else c !! k.
Proof.
  case_decide as Hk.
  - destruct Hk. by apply list_lookup_inserts.
  - destruct (decide (k < i)); [by apply list_lookup_inserts_lt |].
    destruct (decide (i + length a <= k)); [by apply list_lookup_inserts_ge |].
    rewrite !lookup_ge_None_2; [done | lia | rewrite length_inserts; lia].
Qed.

Lemma length_addrAt code i :
  i + ethAddrByteLen <= length code -> length (addrAt code i) = ethAddrByteLen.
Proof. intros Hi. unfold addrAt. rewrite length_take, length_drop. lia. Qed.

Lemma addrAt_inserts_same a i c :
  length a = ethAddrByteLen -> i + ethAddrByteLen <= length c ->
  addrAt (list_inserts i a c) i = a.
Proof.
  intros Ha Hi. apply list_eq. intros k.
  rewrite lookup_addrAt, lookup_inserts.
  repeat case_decide; try lia.
  - f_equal. lia.
  - symmetry. apply lookup_ge_None_2. lia.
Qed.

Lemma addrAt_inserts_other a i c j :
  length a = ethAddrByteLen -> j + ethAddrByteLen <= i \/ i + ethAddrByteLen <= j ->
  addrAt (list_inserts i a c) j = addrAt c j.
Proof.
  intros Ha Hij. apply list_eq. intros k.
  rewrite !lookup_addrAt, lookup_inserts.
  repeat case_decide; try lia; done.
Qed.

Lemma inserts_addrAt c i : list_inserts i (addrAt c i) c = c.
Proof.
  apply list_eq. intros k. rewrite lookup_inserts.
  case_decide as Hk; [| done].
  rewrite lookup_addrAt.
  assert (length (addrAt c i) <= ethAddrByteLen).
  { unfold addrAt. rewrite length_take. lia. }
  case_decide; [| lia]. f_equal. lia.
Qed.

Lemma inserts_inserts_same a b i c :
  length a = length b ->
  list_inserts i a (list_inserts i b c) = list_inserts i a c.
Proof.
  intros Hab. apply list_eq. intros k.
  rewrite !lookup_inserts, !length_inserts.
  repeat case_decide; try lia; done.
Qed.

Lemma inserts_inserts_comm a b i j c :
  length a = ethAddrByteLen -> length b = ethAddrByteLen ->
  i + ethAddrByteLen <= j ->
  list_inserts i a (list_inserts j b c) = list_inserts j b (list_inserts i a c).
Proof.
  intros Ha Hb Hij. apply list_eq. intros k.
  rewrite !lookup_inserts, !length_inserts.
  repeat case_decide; try lia; done.
Qed.

Lemma fillForwarder_cons a i idxs c :
  fillForwarder a (i :: idxs) c = fillForwarder a idxs (list_inserts i a c).
Proof. reflexivity. Qed.

Lemma length_fillForwarder a idxs c : length (fillForwarder a idxs c) = length c.
Proof.
  revert c. induction idxs as [| i idxs IH]; intros c; [done |].
  rewrite fillForwarder_cons, IH. apply length_inserts.
Qed.

Lemma spaced_above lo idxs : spaced lo idxs = true -> Forall (fun i => lo <= i) idxs.
Proof.
  revert lo. induction idxs as [| i idxs IH]; intros lo; cbn; [constructor |].
  intros [Hlo Hrest]%andb_true_iff. apply Nat.leb_le in Hlo.
  constructor; [done |].
  eapply Forall_impl; [apply IH, Hrest |]. cbn. intros; lia.
Qed.

Lemma inRange_Forall len idxs :
  inRange len idxs = true <-> Forall (fun i => i + ethAddrByteLen <= len) idxs.
Proof.
  unfold inRange. induction idxs as [| i idxs IH]; cbn.
  - split; [constructor | done].
  - rewrite andb_true_iff, Forall_cons, IH, Nat.leb_le. tauto.
Qed.

(** Filling later offsets leaves an earlier slot alone. *)
Lemma addrAt_fillForwarder_before a idxs c i :
  length a = ethAddrByteLen ->
  Forall (fun j => i + ethAddrByteLen <= j) idxs ->
  addrAt (fillForwarder a idxs c) i = addrAt c i.
Proof.
  intros Ha. revert c. induction idxs as [| j idxs IH]; intros c Hf; [done |].
  apply Forall_cons in Hf as [Hj Hf].
  rewrite fillForwarder_cons, IH by done.
  apply addrAt_inserts_other; [done | left; exact Hj].
Qed.

Lemma inserts_fillForwarder_comm a b idxs c i :
  length a = ethAddrByteLen -> length b = ethAddrByteLen ->
  Forall (fun j => i + ethAddrByteLen <= j) idxs ->
  list_inserts i a (fillForwarder b idxs c) = fillForwarder b idxs (list_inserts i a c).
Proof.
  intros Ha Hb. revert c. induction idxs as [| j idxs IH]; intros c Hf; [done |].
  apply Forall_cons in Hf as [Hj Hf].
  rewrite !fillForwarder_cons, IH by done.
  rewrite (inserts_inserts_comm a b i j c Ha Hb Hj). done.
Qed.

(** Filling twice is filling once with the later address. *)
Lemma fillForwarder_twice a b lo idxs c :
  length a = ethAddrByteLen -> length b = ethAddrByteLen ->
  spaced lo idxs = true ->
  fillForwarder a idxs (fillForwarder b idxs c) = fillForwarder a idxs c.
Proof.
  intros Ha Hb. revert lo c.
  induction idxs as [| i idxs IH]; intros lo c Hsp; [done |].
  cbn in Hsp. apply andb_true_iff in Hsp as [_ Hsp].
  rewrite !fillForwarder_cons.
  rewrite (inserts_fillForwarder_comm a b idxs _ i Ha Hb (spaced_above _ _ Hsp)).
  rewrite inserts_inserts_same by congruence.
  apply (IH (i + ethAddrByteLen)), Hsp.
Qed.

(** Filling with the address that every slot already holds changes
    nothing. *)
Lemma fillForwarder_id a idxs c :
  Forall (fun i => addrAt c i = a) idxs -> fillForwarder a idxs c = c.
Proof.
  induction idxs as [| i idxs IH]; intros Hf; [done |].
  apply Forall_cons in Hf as [Hi Hf].
  rewrite fillForwarder_cons.
  assert (list_inserts i a c = c) as -> by (rewrite <- Hi; apply inserts_addrAt).
  by apply IH.
Qed.

(** After filling, every slot holds the address. *)
Lemma addrAt_fillForwarder a lo idxs c :
  length a = ethAddrByteLen -> spaced lo idxs = true ->
  inRange (length c) idxs = true ->
  Forall (fun i => addrAt (fillForwarder a idxs c) i = a) idxs.
Proof.
  intros Ha. revert lo c.
  induction idxs as [| i idxs IH]; intros lo c Hsp Hin; [constructor |].
  cbn in Hsp. apply andb_true_iff in Hsp as [_ Hsp].
  apply inRange_Forall, Forall_cons in Hin as [Hi Hin].
  constructor.
  - rewrite fillForwarder_cons.
    rewrite addrAt_fillForwarder_before by eauto using spaced_above.
    by apply addrAt_inserts_same.
  - eapply Forall_impl.
    + apply (IH (i + ethAddrByteLen) (list_inserts i a c)); [done |].
      rewrite length_inserts. by apply inRange_Forall.
    + intros j Hj. exact Hj.
Qed.

End code_slices.

Section contracts_facts.
Import contracts.
Context `{K : Constants}.
Local Open Scope nat_scope.

Implicit Types (code : list byte) (tf : Address) (ec : EthClient).

Lemma wellFormed_unpack :
  wellFormed = true ->
  (exists i rest, forwarderAddrIndices = i :: rest)
  /\ spaced 0 forwarderAddrIndices = true
  /\ inRange (length expectedSwapCreatorBytecode) forwarderAddrIndices = true
  /\ Forall (fun i => addrAt expectedSwapCreatorBytecode i = zeroAddress)
       forwarderAddrIndices.
Proof.
  unfold wellFormed.
  intros [[[Hne Hsp]%andb_true_iff Hin]%andb_true_iff Hz]%andb_true_iff.
  split; [| split; [done | split; [done |]]].
  - destruct forwarderAddrIndices as [| i rest]; [discriminate | by exists i, rest].
  - apply Forall_forall. intros i Hi. apply list_elem_of_In in Hi.
    apply (proj1 (forallb_forall _ _) Hz) in Hi.
    by apply bool_decide_eq_true in Hi.
Qed.

(** The loop succeeds exactly when every offset holds the forwarder, and
    then yields the code with every offset zeroed. *)
Lemma zeroForwarders_Some lo idxs tf code zeroed :
  spaced lo idxs = true ->
  zeroForwarders idxs tf code = Some zeroed <->
  Forall (fun i => addrAt code i = tf) idxs
  /\ zeroed = fillForwarder zeroAddress idxs code.
Proof.
  revert lo code. induction idxs as [| i idxs IH]; intros lo code Hsp; cbn.
  - split.
    + intros [= <-]. split; [constructor | done].
    + intros [_ ->]. done.
  - cbn in Hsp. apply andb_true_iff in Hsp as [_ Hsp].
    pose proof (spaced_above _ _ Hsp) as Habove.
    assert (Hsame : Forall (fun j => addrAt (list_inserts i zeroAddress code) j = tf) idxs
                    <-> Forall (fun j => addrAt code j = tf) idxs).
    { rewrite !Forall_forall. split; intros H j Hj.
      - rewrite <- (H j Hj). symmetry.
        apply addrAt_inserts_other; [done |].
        right. by apply (proj1 (Forall_forall _ _) Habove).
      - rewrite <- (H j Hj).
        apply addrAt_inserts_other; [done |].
        right. by apply (proj1 (Forall_forall _ _) Habove). }
    case_bool_decide as Hi.
    + rewrite (IH (i + ethAddrByteLen)) by done.
      rewrite Hsame, Forall_cons. tauto.
    + split; [discriminate |]. intros [[Hi' _]%Forall_cons _]. done.
Qed.

(** The check has two outcomes only. *)
Lemma CheckSwapCreatorContractCode_cases ec contractAddr :
  (exists tf, CheckSwapCreatorContractCode ec contractAddr = (tf, None))
  \/ CheckSwapCreatorContractCode ec contractAddr
     = (zeroAddress, Some errInvalidSwapCreatorContract).
Proof.
  unfold CheckSwapCreatorContractCode.
  case_bool_decide; [| by right].
  destruct (zeroForwarders _ _ _); [| by right].
  case_bool_decide; [left; by eexists | by right].
Qed.

Lemma CheckSwapCreatorContractCode_accepts tf ec contractAddr :
  wellFormed = true -> length tf = ethAddrByteLen ->
  ec contractAddr = swapCreatorCode tf ->
  CheckSwapCreatorContractCode ec contractAddr = (tf, None).
Proof.
  intros ((i & rest & Hidx) & Hsp & Hin & Hz)%wellFormed_unpack Htf Hcode.
  unfold CheckSwapCreatorContractCode. rewrite Hcode. unfold swapCreatorCode.
  rewrite length_fillForwarder, bool_decide_eq_true_2 by done.
  pose proof (addrAt_fillForwarder tf 0 forwarderAddrIndices
                expectedSwapCreatorBytecode Htf Hsp Hin) as Hall.
  assert (Hfirst : match forwarderAddrIndices with
                   | [] => zeroAddress
                   | i :: _ =>
                       addrAt (fillForwarder tf forwarderAddrIndices
                                 expectedSwapCreatorBytecode) i
                   end = tf).
  { revert Hall. rewrite Hidx. by intros [H _]%Forall_cons. }
  rewrite Hfirst.
  assert (Hloop : zeroForwarders forwarderAddrIndices tf
                    (fillForwarder tf forwarderAddrIndices expectedSwapCreatorBytecode)
                  = Some expectedSwapCreatorBytecode).
  { apply (zeroForwarders_Some 0); [done |]. split; [done |].
    rewrite (fillForwarder_twice _ _ 0) by done.
    symmetry. by apply fillForwarder_id. }
  rewrite Hloop. by rewrite bool_decide_eq_true_2.
Qed.

Lemma CheckSwapCreatorContractCode_accepted_inv tf ec contractAddr :
  wellFormed = true ->
  CheckSwapCreatorContractCode ec contractAddr = (tf, None) ->
  length tf = ethAddrByteLen /\ ec contractAddr = swapCreatorCode tf.
Proof.
  intros ((i & rest & Hidx) & Hsp & Hin & Hz)%wellFormed_unpack.
  unfold CheckSwapCreatorContractCode.
  case_bool_decide as Hlen; [| discriminate].
  destruct (zeroForwarders _ _ _) as [zeroed |] eqn:Hloop; [| discriminate].
  case_bool_decide as Hexp; [| discriminate].
  intros [= Htf]. subst zeroed.
  apply (zeroForwarders_Some 0) in Hloop as [Hall Hzeroed]; [| done].
  assert (Hlentf : length tf = ethAddrByteLen).
  { revert Htf Hin. rewrite Hidx. intros <- [Hi _]%inRange_Forall%Forall_cons.
    apply length_addrAt. by rewrite Hlen. }
  split; [done |].
  rewrite Htf in Hall.
  unfold swapCreatorCode. rewrite Hzeroed at 1.
  rewrite (fillForwarder_twice _ _ 0) by done.
  by rewrite fillForwarder_id.
Qed.

(** C3. The check succeeds exactly when the code at the address is the
    SwapCreator code, that is, the expected code with some forwarder
    address compiled in at the known offsets, and then returns that
    forwarder; on any other code it fails with
    [errInvalidSwapCreatorContract]. Compared with an expected forwarder,
    a contract is accepted exactly when its code is the SwapCreator code
    for that forwarder. *)
Theorem CheckSwapCreatorContractCode_correct ec contractAddr :
  wellFormed = true ->
  (forall tf, length tf = ethAddrByteLen ->
     ec contractAddr = swapCreatorCode tf ->
     CheckSwapCreatorContractCode ec contractAddr = (tf, None))
  /\ (forall tf, CheckSwapCreatorContractCode ec contractAddr = (tf, None) ->
        length tf = ethAddrByteLen /\ ec contractAddr = swapCreatorCode tf)
  /\ ((forall tf, length tf = ethAddrByteLen -> ec contractAddr <> swapCreatorCode tf) ->
        CheckSwapCreatorContractCode ec contractAddr
        = (zeroAddress, Some errInvalidSwapCreatorContract))
  /\ (forall expected, length expected = ethAddrByteLen ->
        VerifyDeployedParameters ec contractAddr expected = true
        <-> ec contractAddr = swapCreatorCode expected).
Proof.
  intros Hwf.
  split; [intros tf; by apply CheckSwapCreatorContractCode_accepts |].
  split; [intros tf; by apply CheckSwapCreatorContractCode_accepted_inv |].
  split.
  - intros Hother.
    destruct (CheckSwapCreatorContractCode_cases ec contractAddr) as [[tf Hok] | Hno];
      [| done].
    destruct (CheckSwapCreatorContractCode_accepted_inv tf ec contractAddr Hwf Hok)
      as [Hlen Hcode].
    by destruct (Hother tf Hlen).
  - intros expected Hlen. unfold VerifyDeployedParameters. split.
    + destruct (CheckSwapCreatorContractCode ec contractAddr) as [tf [e |]] eqn:Hck;
        [discriminate |].
      intros ->%bool_decide_eq_true.
      by apply (CheckSwapCreatorContractCode_accepted_inv _ _ _ Hwf Hck).
    + intros Hcode.
      rewrite (CheckSwapCreatorContractCode_accepts expected ec contractAddr Hwf Hlen Hcode).
      by apply bool_decide_eq_true_2.
Qed.

End contracts_facts.

Lemma CheckSwapCreatorContractCode_correct_witness :
  @contracts.CheckSwapCreatorContractCode sampleConstants sampleChain (repeat x11 20)
    = (sampleForwarder, None)
  /\ @contracts.VerifyDeployedParameters sampleConstants sampleChain (repeat x22 20)
       sampleForwarder <> true.
Proof.
  split.
  - destruct (@CheckSwapCreatorContractCode_correct sampleConstants sampleChain
                (repeat x11 20) eq_refl) as (Hok & _).
    apply Hok; vm_compute; reflexivity.
  - destruct (@CheckSwapCreatorContractCode_correct sampleConstants sampleChain
                (repeat x22 20) eq_refl) as (_ & _ & _ & Hverify).
    intros Hyes. apply (Hverify sampleForwarder eq_refl) in Hyes.
    vm_compute in Hyes. discriminate.
Defined.

(** ** The model evaluated on concrete inputs *)

Example SwapTimeoutFromEnv_development :
  @common.SwapTimeoutFromEnv sampleDecls 3 = Returns 120000000000.
Proof. reflexivity. Qed.

Example DefaultMoneroPortFromEnv_undefined :
  @common.DefaultMoneroPortFromEnv sampleDecls 0 = Panics "invalid environment".
Proof. reflexivity. Qed.

Example CreateRelayClaimRequest_nil_secret :
  @relayer.CreateRelayClaimRequest sampleRelayer tt (Some tt) (Some tt)
    (repeat x11 20) zeroAddress (Some 7) None
  = Panics "runtime error: invalid memory address or nil pointer dereference".
Proof. reflexivity. Qed.

Example Version_sample :
  @rpc.Version sampleRpc bool sampleBackend sampleProtocolBackend
    sampleService emptyResponse
  = (rpc.pb sampleService,
     {| rpc.SwapdVersion := "0.3.0";
        rpc.P2PVersion := "/atomic-swap/0.3/1337";
        rpc.Env := 3;
        rpc.SwapCreatorAddr := repeat x11 20 |},
     None).
Proof. reflexivity. Qed.

Example check_rejects_other_code :
  @contracts.CheckSwapCreatorContractCode sampleConstants sampleChain (repeat x44 20)
  = (zeroAddress, Some contracts.errInvalidSwapCreatorContract).
Proof. vm_compute. reflexivity. Qed.

Example check_rejects_disagreeing_slots :
  @contracts.CheckSwapCreatorContractCode sampleConstants sampleChain (repeat x33 20)
  = (zeroAddress, Some contracts.errInvalidSwapCreatorContract).
Proof. vm_compute. reflexivity. Qed.

Example check_returns_other_forwarder :
  @contracts.CheckSwapCreatorContractCode sampleConstants sampleChain (repeat x22 20)
  = (otherForwarder, None).
Proof. vm_compute. reflexivity. Qed.

Example happy_path :
  protocol.visited protocol.initial
    [sampleDeploy; sampleLocked; sampleReady; sampleClaim 30]
  = [protocol.Created; protocol.ContractDeployed; protocol.CounterAssetLocked;
     protocol.Ready; protocol.Claimed].
Proof. vm_compute. reflexivity. Qed.

Example taker_timeout_after_ready :
  protocol.visited protocol.initial
    [sampleDeploy; sampleLocked; sampleReady; sampleRefund 150; sampleClaim 200;
     sampleRefund 200]
  = [protocol.Created; protocol.ContractDeployed; protocol.CounterAssetLocked;
     protocol.Ready; protocol.Ready; protocol.Ready; protocol.Refunded].
Proof. vm_compute. reflexivity. Qed.

Example refund_before_t0 :
  protocol.visited protocol.initial [sampleDeploy; sampleRefund 99; sampleLocked]
  = [protocol.Created; protocol.ContractDeployed; protocol.Refunded;
     protocol.Refunded].
Proof. vm_compute. reflexivity. Qed.

(** * Further properties of the code *)

(** ** The forwarder scan of [TestForwarderAddrIndexes] *)
Section forwarder_scan.
Import contracts.
Local Open Scope nat_scope.

Implicit Types (code : list byte) (tf : Address) (i j k fuel : nat).

Lemma scan_bound code i :
  (Z.of_nat i <? Z.of_nat (length code) - Z.of_nat ethAddrByteLen)%Z
  = bool_decide (i + ethAddrByteLen < length code).
Proof.
  unfold ethAddrByteLen. case_bool_decide; [apply Z.ltb_lt | apply Z.ltb_ge]; lia.
Qed.

Lemma addressLocationsLoop_acc fuel code tf i acc :
  addressLocationsLoop fuel code tf i acc
  = acc ++ addressLocationsLoop fuel code tf i [].
Proof.
  revert i acc. induction fuel as [| fuel IH]; intros i acc; cbn.
  - by rewrite app_nil_r.
  - destruct (_ <? _)%Z; [| by rewrite app_nil_r].
    case_bool_decide.
    + rewrite (IH _ (acc ++ [i])), (IH _ [i]). by rewrite <- app_assoc.
    + apply IH.
Qed.

(** One iteration of the loop, on the locations still to be found. *)
Lemma addressLocationsLoop_step fuel code tf i :
  addressLocationsLoop (S fuel) code tf i [] =
    if bool_decide (i + ethAddrByteLen < length code)
    then if bool_decide (addrAt code i = tf)
         then i :: addressLocationsLoop fuel code tf (i + ethAddrByteLen) []
         else addressLocationsLoop fuel code tf (i + 1) []
    else [].
Proof.
  cbn [addressLocationsLoop]. rewrite scan_bound.
  case_bool_decide; [| done]. case_bool_decide; [| done].
  rewrite addressLocationsLoop_acc. cbn. do 2 f_equal. unfold ethAddrByteLen. lia.
Qed.

Lemma spaced_weaken lo lo' idxs : lo' <= lo -> spaced lo idxs = true -> spaced lo' idxs = true.
Proof.
  destruct idxs as [| i idxs]; cbn; [done |].
  intros Hle [Hlo Hrest]%andb_true_iff. apply Nat.leb_le in Hlo.
  apply andb_true_iff. split; [apply Nat.leb_le; lia | done].
Qed.

Lemma addressLocationsLoop_sound fuel code tf i :
  Forall (fun j => i <= j /\ j + ethAddrByteLen < length code /\ addrAt code j = tf)
    (addressLocationsLoop fuel code tf i []).
Proof.
  revert i. induction fuel as [| fuel IH]; intros i; [constructor |].
  rewrite addressLocationsLoop_step.
  case_bool_decide as Hi; [| constructor].
  case_bool_decide as Hm.
  - constructor; [done |].
    eapply Forall_impl; [apply IH |]. cbn. intros j (? & ? & ?). repeat split; [lia | done..].
  - eapply Forall_impl; [apply IH |]. cbn. intros j (? & ? & ?). repeat split; [lia | done..].
Qed.

Lemma addressLocationsLoop_spaced fuel code tf i :
  spaced i (addressLocationsLoop fuel code tf i []) = true.
Proof.
  revert i. induction fuel as [| fuel IH]; intros i; [done |].
  rewrite addressLocationsLoop_step.
  case_bool_decide as Hi; [| done].
  case_bool_decide as Hm.
  - cbn. rewrite Nat.leb_refl. apply IH.
  - apply (spaced_weaken (i + 1)); [lia | apply IH].
Qed.

Lemma addressLocationsLoop_covers fuel code tf i j :
  length code <= fuel + i ->
  i <= j -> j + ethAddrByteLen < length code -> addrAt code j = tf ->
  exists k, k ∈ addressLocationsLoop fuel code tf i [] /\ k <= j < k + ethAddrByteLen.
Proof.
  revert i. induction fuel as [| fuel IH]; intros i Hfuel Hij Hj Hm.
  - unfold ethAddrByteLen in *. lia.
  - rewrite addressLocationsLoop_step.
    rewrite bool_decide_eq_true_2 by lia.
    case_bool_decide as Hi.
    + destruct (decide (j < i + ethAddrByteLen)) as [Hlt | Hge].
      * exists i. split; [apply list_elem_of_here | lia].
      * destruct (IH (i + ethAddrByteLen)) as (k & Hk & Hkj);
          [unfold ethAddrByteLen in *; lia | lia | done | done |].
        exists k. split; [by apply list_elem_of_further | done].
    + assert (i <> j) by congruence.
      apply IH; [lia | lia | done | done].
Qed.

Lemma addressLocationsLoop_done fuel code tf i :
  length code <= i + ethAddrByteLen -> addressLocationsLoop fuel code tf i [] = [].
Proof.
  intros Hi. destruct fuel as [| fuel]; [done |].
  rewrite addressLocationsLoop_step. by rewrite bool_decide_eq_false_2 by lia.
Qed.

Lemma addressLocationsLoop_fuel fuel fuel' code tf i :
  length code <= fuel + i -> fuel <= fuel' ->
  addressLocationsLoop fuel' code tf i [] = addressLocationsLoop fuel code tf i [].
Proof.
  revert fuel' i. induction fuel as [| fuel IH]; intros fuel' i Hfuel Hle.
  - rewrite !addressLocationsLoop_done; [done | lia | lia].
  - destruct fuel' as [| fuel']; [lia |].
    rewrite !addressLocationsLoop_step.
    case_bool_decide as Hi; [| done].
    case_bool_decide as Hm.
    + f_equal. apply IH; unfold ethAddrByteLen; lia.
    + apply IH; lia.
Qed.

Lemma spaced_pairwise lo idxs p q a b :
  spaced lo idxs = true -> p < q -> idxs !! p = Some a -> idxs !! q = Some b ->
  a + ethAddrByteLen <= b.
Proof.
  revert lo p q. induction idxs as [| i idxs IH]; intros lo p q Hsp Hpq Hp Hq;
    [done |].
  cbn in Hsp. apply andb_true_iff in Hsp as [_ Hsp].
  destruct q as [| q]; [lia |]. cbn in Hq.
  destruct p as [| p].
  - cbn in Hp. injection Hp as ->.
    pose proof (spaced_above _ _ Hsp) as Habove.
    apply (proj1 (Forall_forall _ _) Habove). by eapply list_elem_of_lookup_2.
  - cbn in Hp. eapply (IH _ p q); [done | lia | done | done].
Qed.

(** X1. Every location the scan reports holds the forwarder address, and
    lies more than an address length before the end of the code: the bound
    of the loop is strict, so a forwarder in the last 20 bytes is not
    reported. *)
Theorem addressLocations_sound code tf i :
  i ∈ addressLocations code tf ->
  addrAt code i = tf /\ i + ethAddrByteLen < length code.
Proof.
  intros Hi.
  pose proof (addressLocationsLoop_sound (length code) code tf 0) as Hall.
  apply (proj1 (Forall_forall _ _) Hall) in Hi as (_ & ? & ?). done.
Qed.

(** X2. The reported locations are in increasing order and never overlap:
    a later one starts at least an address length after an earlier one. *)
Theorem addressLocations_apart code tf p q a b :
  p < q ->
  addressLocations code tf !! p = Some a ->
  addressLocations code tf !! q = Some b ->
  a + ethAddrByteLen <= b.
Proof.
  apply (spaced_pairwise 0). apply addressLocationsLoop_spaced.
Qed.

(** X3. No occurrence is lost: every position before the loop bound where
    the code holds the forwarder lies inside a reported location, and the
    leftmost such position is itself reported. *)
Theorem addressLocations_covers code tf j :
  j + ethAddrByteLen < length code -> addrAt code j = tf ->
  (exists k, k ∈ addressLocations code tf /\ k <= j < k + ethAddrByteLen)
  /\ ((forall j', j' < j -> addrAt code j' <> tf) -> j ∈ addressLocations code tf).
Proof.
  intros Hj Hm.
  destruct (addressLocationsLoop_covers (length code) code tf 0 j) as (k & Hk & Hkj);
    [lia | lia | done | done |].
  split; [by exists k |].
  intros Hleft.
  pose proof (addressLocationsLoop_sound (length code) code tf 0) as Hall.
  apply (proj1 (Forall_forall _ _) Hall) in Hk as Hsound.
  destruct Hsound as (_ & _ & Hmk).
  destruct (decide (k = j)) as [-> | Hne]; [done |].
  destruct (Hleft k); [lia | done].
Qed.

(** X4. The loop is over after at most [len(contactBytes)] iterations:
    letting it run longer reports the same locations. *)
Theorem addressLocations_fuel code tf fuel :
  length code <= fuel ->
  addressLocationsLoop fuel code tf 0 [] = addressLocations code tf.
Proof.
  intros Hfuel. apply addressLocationsLoop_fuel; lia.
Qed.

End forwarder_scan.

Lemma addressLocations_sound_witness :
  contracts.addrAt (@contracts.swapCreatorCode sampleConstants sampleForwarder) 24
    = sampleForwarder
  /\ (24 + ethAddrByteLen
      < length (@contracts.swapCreatorCode sampleConstants sampleForwarder))%nat.
Proof.
  apply (addressLocations_sound
           (@contracts.swapCreatorCode sampleConstants sampleForwarder)
           sampleForwarder 24).
  apply (bool_decide_unpack _). vm_compute. exact I.
Defined.

Lemma addressLocations_apart_witness : (2 + ethAddrByteLen <= 24)%nat.
Proof.
  apply (addressLocations_apart
           (@contracts.swapCreatorCode sampleConstants sampleForwarder)
           sampleForwarder 0 1 2 24).
  - lia.
  - vm_compute. reflexivity.
  - vm_compute. reflexivity.
Defined.

Lemma addressLocations_covers_witness :
  2%nat ∈ contracts.addressLocations
            (@contracts.swapCreatorCode sampleConstants sampleForwarder) sampleForwarder.
Proof.
  destruct (addressLocations_covers
              (@contracts.swapCreatorCode sampleConstants sampleForwarder)
              sampleForwarder 2) as [_ Hleft].
  - vm_compute. lia.
  - vm_compute. reflexivity.
  - apply Hleft. intros j' Hj'.
    destruct j' as [| [| j']]; [vm_compute; discriminate | vm_compute; discriminate | lia].
Defined.

Lemma addressLocations_fuel_witness :
  contracts.addressLocationsLoop 100
    (@contracts.swapCreatorCode sampleConstants sampleForwarder) sampleForwarder 0 []
  = [2%nat; 24%nat].
Proof.
  rewrite (addressLocations_fuel
             (@contracts.swapCreatorCode sampleConstants sampleForwarder)
             sampleForwarder 100).
  - vm_compute. reflexivity.
  - vm_compute. lia.
Defined.

Section forwarder_indices_test.
Import contracts.
Context `{K : Constants}.
Local Open Scope nat_scope.

(** X5. When the test's comparison holds for a deployed code as long as
    the expected one, the recorded offsets are in increasing order, an
    address length apart, inside the expected code, and each holds the
    forwarder in the deployed code: two of the conditions under which the
    bytecode check is correct follow from the test. *)
Theorem forwarderAddrIndicesMatch_wellFormed (contactBytes : list byte) (tf : Address) :
  forwarderAddrIndicesMatch contactBytes tf = true ->
  length contactBytes = length expectedSwapCreatorBytecode ->
  spaced 0 forwarderAddrIndices = true
  /\ inRange (length expectedSwapCreatorBytecode) forwarderAddrIndices = true
  /\ Forall (fun i => addrAt contactBytes i = tf) forwarderAddrIndices.
Proof.
  unfold forwarderAddrIndicesMatch. intros Heq%bool_decide_eq_true Hlen.
  rewrite Heq, <- Hlen.
  pose proof (addressLocationsLoop_sound (length contactBytes) contactBytes tf 0) as Hall.
  fold (addressLocations contactBytes tf) in Hall.
  split; [apply addressLocationsLoop_spaced |]. split.
  - apply inRange_Forall. eapply Forall_impl; [exact Hall |].
    cbn. intros i (_ & Hi & _). lia.
  - eapply Forall_impl; [exact Hall |]. cbn. by intros i (_ & _ & Hi).
Qed.

End forwarder_indices_test.

Lemma forwarderAddrIndicesMatch_wellFormed_witness :
  contracts.spaced 0 (@contracts.forwarderAddrIndices sampleConstants) = true
  /\ contracts.inRange (length (@contracts.expectedSwapCreatorBytecode sampleConstants))
       (@contracts.forwarderAddrIndices sampleConstants) = true
  /\ Forall (fun i => contracts.addrAt
                        (@contracts.swapCreatorCode sampleConstants sampleForwarder) i
                      = sampleForwarder)
       (@contracts.forwarderAddrIndices sampleConstants).
Proof.
  apply (@forwarderAddrIndicesMatch_wellFormed sampleConstants
           (@contracts.swapCreatorCode sampleConstants sampleForwarder) sampleForwarder).
  - vm_compute. reflexivity.
  - vm_compute. reflexivity.
Defined.

(** ** More on [common/config.go] *)
Section config_switches.
Import common.
Context `{D : Decls}.

Lemma env_listed (env : Environment) :
  env ∈ [Mainnet; Stagenet; Development] <->
  (env =? Mainnet) || (env =? Stagenet) || (env =? Development) = true.
Proof.
  rewrite !elem_of_cons, elem_of_nil, !orb_true_iff, !Z.eqb_eq. tauto.
Qed.

(** X6. The three functions that switch on the environment accept the same
    values: each returns exactly on Mainnet, Stagenet and Development, and
    so panics exactly where the others do. *)
Theorem environment_switches_agree (env : Environment) :
  ((exists cfg, ConfigDefaultsForEnv env = Returns cfg)
     <-> env ∈ [Mainnet; Stagenet; Development])
  /\ ((exists d, SwapTimeoutFromEnv env = Returns d)
        <-> env ∈ [Mainnet; Stagenet; Development])
  /\ ((exists port, DefaultMoneroPortFromEnv env = Returns port)
        <-> env ∈ [Mainnet; Stagenet; Development]).
Proof.
  rewrite env_listed.
  unfold ConfigDefaultsForEnv, SwapTimeoutFromEnv, DefaultMoneroPortFromEnv.
  destruct (env =? Mainnet), (env =? Stagenet), (env =? Development); cbn;
    repeat split; try (intros _; by eexists); try done;
    intros [? ?]; discriminate.
Qed.

(** X7. With distinct environment constants, [DefaultMoneroPortFromEnv]
    gives each environment its own default port constant. *)
Theorem DefaultMoneroPortFromEnv_ports :
  NoDup [Mainnet; Stagenet; Development] ->
  DefaultMoneroPortFromEnv Mainnet = Returns DefaultMoneroDaemonMainnetPort
  /\ DefaultMoneroPortFromEnv Stagenet = Returns DefaultMoneroDaemonStagenetPort
  /\ DefaultMoneroPortFromEnv Development = Returns DefaultMoneroDaemonDevPort.
Proof.
  intros Hdistinct.
  apply NoDup_cons in Hdistinct as [HM Hdistinct].
  apply NoDup_cons in Hdistinct as [HS _].
  rewrite !elem_of_cons, elem_of_nil in HM. rewrite elem_of_cons, elem_of_nil in HS.
  assert (E1 : (Stagenet =? Mainnet) = false) by (apply Z.eqb_neq; intuition).
  assert (E2 : (Development =? Mainnet) = false) by (apply Z.eqb_neq; intuition).
  assert (E3 : (Development =? Stagenet) = false) by (apply Z.eqb_neq; intuition).
  unfold DefaultMoneroPortFromEnv.
  by rewrite E1, E2, E3, !Z.eqb_refl.
Qed.

(** X8. Whatever the environment constants are, a configuration that
    [ConfigDefaultsForEnv] returns is not [nil], carries the environment
    asked for, has its chain id set, lists at least one Monero node, and
    keeps its data under the base directory. *)
Theorem ConfigDefaultsForEnv_usable (env : Environment) (r : ptr Config) :
  ConfigDefaultsForEnv env = Returns r ->
  exists cfg sub,
    r = Some cfg
    /\ Env cfg = env
    /\ EthereumChainID cfg <> None
    /\ MoneroNodes cfg <> []
    /\ DataDir cfg = path_Join [baseDir; sub].
Proof.
  unfold ConfigDefaultsForEnv.
  destruct (env =? Mainnet) eqn:E1;
    [| destruct (env =? Stagenet) eqn:E2;
       [| destruct (env =? Development) eqn:E3; [| discriminate]]];
    intros [= <-]; eexists; eexists; (split; [reflexivity |]); cbn;
    (split; [symmetry; by apply Z.eqb_eq |]); repeat split; done.
Qed.

(** X9. A swap timeout that [SwapTimeoutFromEnv] returns is never shorter
    than two minutes nor longer than an hour. *)
Theorem SwapTimeoutFromEnv_bounds (env : Environment) (d : Duration) :
  SwapTimeoutFromEnv env = Returns d ->
  2 * time_Minute <= d <= time_Hour /\ (d = 3600000000000 \/ d = 120000000000).
Proof.
  unfold SwapTimeoutFromEnv.
  destruct ((env =? Mainnet) || (env =? Stagenet));
    [| destruct (env =? Development); [| discriminate]];
    intros [= <-]; unfold time_Hour, time_Minute, time_Second; split; try lia; auto.
Qed.

End config_switches.

Lemma DefaultMoneroPortFromEnv_ports_witness :
  @common.DefaultMoneroPortFromEnv sampleDecls 2 = Returns 38081.
Proof.
  destruct (@DefaultMoneroPortFromEnv_ports sampleDecls sampleDecls_distinct)
    as (_ & Hstagenet & _).
  exact Hstagenet.
Defined.

Lemma ConfigDefaultsForEnv_usable_witness :
  exists cfg sub,
    @common.StagenetConfig sampleDecls = Some cfg
    /\ common.Env cfg = 2
    /\ common.EthereumChainID cfg <> None
    /\ common.MoneroNodes cfg <> []
    /\ common.DataDir cfg
       = @common.path_Join sampleDecls [@common.baseDir sampleDecls; sub].
Proof.
  apply (@ConfigDefaultsForEnv_usable sampleDecls 2). reflexivity.
Defined.

Lemma SwapTimeoutFromEnv_bounds_witness :
  2 * common.time_Minute <= 120000000000 <= common.time_Hour
  /\ (120000000000 = 3600000000000 \/ 120000000000 = 120000000000).
Proof.
  apply (@SwapTimeoutFromEnv_bounds sampleDecls 3). reflexivity.
Defined.

(** ** More on [rpc/daemon.go] *)

Lemma string_append_inj_r (s a b : string) :
  (s ++ a)%string = (s ++ b)%string -> a = b.
Proof. induction s as [| c s IH]; cbn; [done |]. intros [= H]. by apply IH. Qed.

Lemma to_int_printable (n : Z) : Z.to_int n <> Decimal.Pos Decimal.Nil
                                 /\ Z.to_int n <> Decimal.Neg Decimal.Nil.
Proof.
  destruct n as [| p | p]; cbn; split; try discriminate;
    intros [= H]; by apply (Unsigned.to_uint_nonnil p).
Qed.

(** [%d] prints different numbers differently. *)
Lemma Sprintf_s_d_inj (s : string) (n m : Z) :
  rpc.Sprintf_s_d s n = rpc.Sprintf_s_d s m -> n = m.
Proof.
  unfold rpc.Sprintf_s_d. intros H.
  apply string_append_inj_r in H. apply (string_append_inj_r "/") in H.
  apply DecimalZ.to_int_inj.
  destruct (to_int_printable n) as [Hn1 Hn2], (to_int_printable m) as [Hm1 Hm2].
  pose proof (NilZero.isi (Z.to_int n) Hn1 Hn2) as Rn.
  pose proof (NilZero.isi (Z.to_int m) Hm1 Hm2) as Rm.
  rewrite H in Rn. congruence.
Qed.

Section version_facts.
Import rpc.
Context `{X : Externals} {S B : Type} `{PB : ProtocolBackend.t B}.

(** X10. [Version] writes all four fields of the response, so nothing of
    what the response held before the call survives; and with a backend
    whose methods are accessors, calling it again on a service built by
    [NewDaemonService] around the backend it left, with the response it
    filled, changes nothing. *)
Theorem Version_overwrites_response
    (RO : ProtocolBackend.Accessors B)
    (s : DaemonService S B) (resp resp' : VersionResponse) :
  Version s resp = Version s resp'
  /\ Version (NewDaemonService (stopServer s) (Version s resp).1.1) (Version s resp).1.2
     = Version s resp.
Proof.
  split; [by rewrite !Version_unfold |].
  rewrite !Version_unfold. cbn.
  by rewrite !ProtocolBackend.SwapCreatorAddr_reads, !ProtocolBackend.Env_reads,
    !ProtocolBackend.ETHClient_reads.
Qed.

(** X11. The reported p2p version tells the chain apart: two services
    whose responses carry the same [P2PVersion] run on the same chain id. *)
Theorem Version_P2PVersion_chain (s s' : DaemonService S B) (resp resp' : VersionResponse) :
  P2PVersion (Version s resp).1.2 = P2PVersion (Version s' resp').1.2 ->
  ProtocolBackend.ChainID (ProtocolBackend.ETHClient (pb s)).1
  = ProtocolBackend.ChainID (ProtocolBackend.ETHClient (pb s')).1.
Proof.
  rewrite !Version_unfold. cbn. apply Sprintf_s_d_inj.
Qed.

End version_facts.

Lemma Version_overwrites_response_witness :
  @rpc.Version sampleRpc bool sampleBackend sampleProtocolBackend sampleService
    emptyResponse
  = @rpc.Version sampleRpc bool sampleBackend sampleProtocolBackend sampleService
      {| rpc.SwapdVersion := "stale"; rpc.P2PVersion := "stale"; rpc.Env := 9;
         rpc.SwapCreatorAddr := repeat xff 20 |}.
Proof.
  destruct (@Version_overwrites_response sampleRpc bool sampleBackend
              sampleProtocolBackend sampleProtocolBackend_accessors sampleService
              emptyResponse
              {| rpc.SwapdVersion := "stale"; rpc.P2PVersion := "stale"; rpc.Env := 9;
                 rpc.SwapCreatorAddr := repeat xff 20 |}) as [Hsame _].
  exact Hsame.
Defined.

Lemma Version_P2PVersion_chain_witness :
  @rpc.ProtocolBackend.ChainID sampleBackend sampleProtocolBackend
    (@rpc.ProtocolBackend.ETHClient sampleBackend sampleProtocolBackend
       (rpc.pb sampleService)).1 = 1337.
Proof.
  apply (@Version_P2PVersion_chain sampleRpc bool sampleBackend sampleProtocolBackend
           sampleService
           {| rpc.stopServer := fun b => b;
              rpc.pb := {| sb_env := 1; sb_addr := zeroAddress; sb_chain := 1337 |} |}
           emptyResponse emptyResponse).
  vm_compute. reflexivity.
Defined.

(** ** More on the relay-claim request builder *)
Section relayer_panics.
Import relayer.
Context `{X : Externals}.

(** X12. [CreateRelayClaimRequest] panics in two cases only: when the
    signer panics, with the signer's message, or when the signer succeeded
    and the secret pointer is [nil], at [secret[:]]. A failing signer with
    a [nil] secret gives the error, not a panic. *)
Theorem CreateRelayClaimRequest_panics
    (ctx : Context_) (key : ptr PrivateKey) (ec : ptr EthClient)
    (swapCreatorAddr forwarderAddr : Address)
    (swap : ptr SwapCreatorSwap) (secret : ptr Bytes32) (msg : string) :
  CreateRelayClaimRequest ctx key ec swapCreatorAddr forwarderAddr swap secret
    = Panics msg
  <-> createForwarderSignature ctx key ec swapCreatorAddr forwarderAddr swap secret
        = Panics msg
      \/ (exists sig,
            createForwarderSignature ctx key ec swapCreatorAddr forwarderAddr swap secret
              = Returns (sig, None)
            /\ secret = None
            /\ msg = "runtime error: invalid memory address or nil pointer dereference"%string).
Proof.
  unfold CreateRelayClaimRequest.
  destruct (createForwarderSignature _ _ _ _ _ _ _) as [[sig [err |]] | msg']; cbn.
  - split; [discriminate |]. intros [H | (sig' & H & _)]; discriminate.
  - destruct secret as [s |]; cbn.
    + split; [discriminate |]. intros [H | (sig' & _ & H & _)]; discriminate.
    + split.
      * intros [= <-]. right. by exists sig.
      * intros [H | (sig' & _ & _ & ->)]; [discriminate | done].
  - split.
    + intros [= ->]. by left.
    + intros [[= ->] | (sig' & H & _)]; [done | discriminate].
Qed.

End relayer_panics.

Lemma CreateRelayClaimRequest_panics_witness :
  @relayer.CreateRelayClaimRequest sampleRelayer tt (Some tt) (Some tt)
    (repeat x11 20) zeroAddress (Some 7) None
  = Panics "runtime error: invalid memory address or nil pointer dereference".
Proof.
  apply (@CreateRelayClaimRequest_panics sampleRelayer tt (Some tt) (Some tt)
           (repeat x11 20) zeroAddress (Some 7) None).
  right. eexists. split; [vm_compute; reflexivity |]. split; reflexivity.
Defined.

(** ** More on the protocol write-up *)
Section protocol_progress.
Import protocol.
Context `{C : Curve}.

(** X13. No deadlock: at any point of any run at which the contract still
    holds the funds, the Maker's refund with the Maker's secret succeeds
    from [t1] on, whether or not [ready] was called, and ends the swap in
    Refunded with the funds returned. *)
Theorem refund_reenabled_after_t1
    (trace : list Input) (c : Contract) (secret : Secret) (time : Z) :
  contract (run initial trace) = Some c ->
  funds c = Held ->
  Commit secret = makerCommitment (params c) ->
  t1 (params c) <= time ->
  deliver (run initial trace) {| actor := Maker; now := time; event := CallRefund secret |}
  = {| state := Refunded;
       contract := Some {| params := params c; is_ready := is_ready c;
                           funds := ReturnedToMaker |} |}.
Proof.
  intros Hc Hheld Hsec Htime.
  assert (Hcons : consistent (run initial trace))
    by apply consistent_run, consistent_initial.
  assert (Hr : refund Maker secret time c =
               Some {| params := params c; is_ready := is_ready c;
                       funds := ReturnedToMaker |}).
  { apply refund_Some. repeat split; try done. right. split; [done | congruence]. }
  destruct (consistent_held _ c Hcons Hc Hheld) as [[Hst _] | [Hst _]].
  - unfold deliver, step. cbn. rewrite Hc.
    revert Hst. rewrite !elem_of_cons, elem_of_nil.
    intros [-> | [-> | []]]; cbn; by rewrite Hr.
  - unfold deliver, step. cbn. rewrite Hc, Hst. cbn. by rewrite Hr.
Qed.


End protocol_progress.

Lemma refund_reenabled_after_t1_witness :
  protocol.state
    (protocol.deliver
       (protocol.run protocol.initial [sampleDeploy; sampleLocked; sampleReady])
       (sampleRefund 200))
  = protocol.Refunded.
Proof.
  assert (Hlate : 200 <= 200) by lia.
  exact (f_equal protocol.state
           (@refund_reenabled_after_t1 sampleCurve
              [sampleDeploy; sampleLocked; sampleReady]
              (@protocol.Build_Contract sampleCurve sampleParams true protocol.Held)
              11 200 eq_refl eq_refl eq_refl Hlate)).
Defined.


(** ** The scan on concrete codes *)

(** A forwarder that fills the last twenty bytes is not found: the loop
    stops one position early. One byte further from the end, it is. *)
Example addressLocations_at_end :
  contracts.addressLocations ([x60; x80] ++ sampleForwarder) sampleForwarder = []
  /\ contracts.addressLocations ([x60; x80] ++ sampleForwarder ++ [x00]) sampleForwarder
     = [2%nat].
Proof. split; vm_compute; reflexivity. Qed.

(** Overlapping occurrences: once a location is reported the scan resumes
    after it. *)
Example addressLocations_overlap :
  contracts.addressLocations (repeat xb2 45) sampleForwarder = [0%nat; 20%nat].
Proof. vm_compute. reflexivity. Qed.
